(** * haproxy-docker-wrapper: the connection-draining packet queue

    A shallow embedding of [netqueue.go]:

    - [Module ProcNetfilter]: the reader of the kernel's per-queue
      accounting file ([ProcNetfilterQueue], [ProcNetfilter.Get],
      [ProcNetfilter.Update], [ReadProcNetfilter]);
    - [Module NetfilterQueue]: the drain controller ([NetfilterQueue.iptables],
      [NetfilterQueue.loop] with its packet goroutine, [Capture], [Release]) as
      a labelled transition function over the goroutines' program points and
      the three one-slot channels.

    Go's [uint] and [int] are taken at their 64-bit width. *)

From Stdlib Require Import ZArith NArith Lia Ascii String List DecimalString DecimalN.
From stdpp Require Import base option list gmap strings.

Local Open Scope string_scope.
Local Open Scope list_scope.
Local Open Scope stdpp_scope.

(** ** Go's errors that the code distinguishes *)

Inductive error :=
| EOF                      (* io.EOF *)
| ErrUnexpectedEOF         (* io.ErrUnexpectedEOF *)
| ErrScan (msg : string)   (* any other error of fmt.Fscanf *)
| ErrOpen (msg : string).  (* os.Open failed *)

Module ProcNetfilter.

(** *** The record kept per queue (netqueue.go, lines 165-175) *)

Record ProcNetfilterQueue := mkQueue {
  ID : N;
  PortID : N;
  Waiting : N;
  CopyMode : N;
  CopyRange : N;
  QueueDropped : N;
  UserDropped : N;
  LastSeq : N;
  One : N
}.

(** The zero value of the struct, which a Go map lookup returns for a
    missing key. *)
Definition zeroQueue : ProcNetfilterQueue := mkQueue 0 0 0 0 0 0 0 0 0.

(** [pn.queues], a [map[uint]ProcNetfilterQueue].  The read/write lock only
    serialises whole calls, so a call is a function of the map. *)
Abbreviation queues := (gmap N ProcNetfilterQueue).

(** [Get] (lines 183-189). *)
Definition Get (pn : queues) (id : N) : ProcNetfilterQueue * bool :=
  match pn !! id with
  | Some q => (q, true)
  | None => (zeroQueue, false)
  end.

(** *** [fmt.Fscanf] on the format of line 205

    The format is nine [%d] verbs separated by one space and closed by a
    newline, read into [*uint] operands.  The definitions below follow Go's
    [fmt] scanner for exactly this format: [SkipSpace], [notEOF] and
    [scanNumber] for a verb, [advance] for the space and the newline of the
    format.  The file is read as bytes; the bytes above 127, which the kernel
    never writes there, count as neither space nor digit. *)

Definition nl : ascii := "010"%char.

Definition isSpace (c : ascii) : bool :=
  let n := nat_of_ascii c in
  ((9 <=? n)%nat && (n <=? 13)%nat) || (n =? 32)%nat.

Definition isNewline (c : ascii) : bool := (nat_of_ascii c =? 10)%nat.

Definition isDigit (c : ascii) : bool :=
  let n := nat_of_ascii c in (48 <=? n)%nat && (n <=? 57)%nat.

Definition digitVal (c : ascii) : N := N.of_nat (nat_of_ascii c - 48).

(** The range of a 64-bit [uint]. *)
Definition maxUint : N := 2 ^ 64.

(** [SkipSpace] in a scan where a newline is not a space: blanks are
    dropped, a newline is an error, end of input is not. *)
Fixpoint SkipSpace (s : string) : string + error :=
  match s with
  | EmptyString => inl EmptyString
  | String c s' =>
      if isNewline c then inr (ErrScan "unexpected newline")
      else if isSpace c then SkipSpace s'
      else inl s
  end.

(** The run of blanks (spaces other than newline) that [advance] drops. *)
Fixpoint skipBlanks (s : string) : string :=
  match s with
  | EmptyString => EmptyString
  | String c s' =>
      if isSpace c && negb (isNewline c) then skipBlanks s' else s
  end.

(** [accept] of decimal digits in a loop, accumulating the value that
    [strconv.ParseUint] gives to the token. *)
Fixpoint acceptDigits (s : string) (acc : N) : N * string :=
  match s with
  | EmptyString => (acc, EmptyString)
  | String c s' =>
      if isDigit c then acceptDigits s' (10 * acc + digitVal c)%N
      else (acc, s)
  end.

(** [scanUint] for the verb [%d]: skip space, fail with [io.EOF] at end of
    input, read the digits, reject a value that does not fit. *)
Definition scanUint (s : string) : (N * string) + error :=
  match SkipSpace s with
  | inr e => inr e
  | inl s1 =>
      match s1 with
      | EmptyString => inr EOF
      | String c s2 =>
          if isDigit c then
            let '(v, rest) := acceptDigits s2 (digitVal c) in
            if (v <? maxUint)%N then inl (v, rest)
            else inr (ErrScan "value out of range")
          else inr (ErrScan "expected integer")
      end
  end.

(** [advance] over the single space of the format: the input must continue
    with a blank (or end); a newline there is an error. *)
Definition advanceSpace (s : string) : string + error :=
  match s with
  | EmptyString => inl EmptyString
  | String c s' =>
      if negb (isSpace c) then
        inr (ErrScan "expected space in input to match format")
      else if isNewline c then
        inr (ErrScan "newline in input does not match format")
      else inl (skipBlanks s')
  end.

(** [advance] over the newline that ends the format: blanks, then a newline
    or the end of the input. *)
Definition advanceNewline (s : string) : string + error :=
  match skipBlanks s with
  | EmptyString => inl EmptyString
  | String c rest =>
      if isNewline c then inl rest
      else inr (ErrScan "newline in format does not match input")
  end.

(** The nine variables of line 203. *)
Record vars := mkVars {
  id : N; portID : N; waiting : N; copyMode : N; copyRange : N;
  queueDropped : N; userDropped : N; lastSeq : N; one : N
}.

(** [var id, portID, ... uint]: all zero. *)
Definition zeroVars : vars := mkVars 0 0 0 0 0 0 0 0 0.

(** Storing through the [k]-th operand pointer of the call. *)
Definition assign (k : nat) (x : N) (v : vars) : vars :=
  match k with
  | 0%nat =>
      mkVars x (portID v) (waiting v) (copyMode v) (copyRange v)
        (queueDropped v) (userDropped v) (lastSeq v) (one v)
  | 1%nat =>
      mkVars (id v) x (waiting v) (copyMode v) (copyRange v)
        (queueDropped v) (userDropped v) (lastSeq v) (one v)
  | 2%nat =>
      mkVars (id v) (portID v) x (copyMode v) (copyRange v)
        (queueDropped v) (userDropped v) (lastSeq v) (one v)
  | 3%nat =>
      mkVars (id v) (portID v) (waiting v) x (copyRange v)
        (queueDropped v) (userDropped v) (lastSeq v) (one v)
  | 4%nat =>
      mkVars (id v) (portID v) (waiting v) (copyMode v) x
        (queueDropped v) (userDropped v) (lastSeq v) (one v)
  | 5%nat =>
      mkVars (id v) (portID v) (waiting v) (copyMode v) (copyRange v)
        x (userDropped v) (lastSeq v) (one v)
  | 6%nat =>
      mkVars (id v) (portID v) (waiting v) (copyMode v) (copyRange v)
        (queueDropped v) x (lastSeq v) (one v)
  | 7%nat =>
      mkVars (id v) (portID v) (waiting v) (copyMode v) (copyRange v)
        (queueDropped v) (userDropped v) x (one v)
  | _ =>
      mkVars (id v) (portID v) (waiting v) (copyMode v) (copyRange v)
        (queueDropped v) (userDropped v) (lastSeq v) x
  end.

Section Scan.

(** What the scanner reports when the input ends after at least one operand
    of the call was stored: [io.EOF] or [io.ErrUnexpectedEOF], according to
    the release of the [fmt] package.  Before the first operand it is always
    [io.EOF]. *)
Variable partialEOF : error.

(** The verbs from the [k]-th on, [n] of them left, then the closing
    newline.  The result is the variables as the call leaves them, the
    error, and what is left of the file. *)
Fixpoint scanFields (k n : nat) (s : string) (v : vars)
  : vars * option error * string :=
  match n with
  | O =>
      match advanceNewline s with
      | inl rest => (v, None, rest)
      | inr e => (v, Some e, EmptyString)
      end
  | S n' =>
      match (if (k =? 0)%nat then inl s else advanceSpace s) with
      | inr e => (v, Some e, EmptyString)
      | inl s1 =>
          match scanUint s1 with
          | inr EOF =>
              (v, Some (if (k =? 0)%nat then EOF else partialEOF), EmptyString)
          | inr e => (v, Some e, EmptyString)
          | inl (x, s2) => scanFields (S k) n' s2 (assign k x v)
          end
      end
  end.

(** [fmt.Fscanf(f, "%d %d %d %d %d %d %d %d %d\n", &id, ..., &one)]. *)
Definition Fscanf (f : string) (v : vars) : vars * option error * string :=
  scanFields 0 9 f v.

(** *** [Update] (lines 191-232) *)

Definition queueOf (v : vars) : ProcNetfilterQueue :=
  mkQueue (id v) (portID v) (waiting v) (copyMode v) (copyRange v)
          (queueDropped v) (userDropped v) (lastSeq v) (one v).

(** How the [for] loop of lines 204-225 is left. *)
Inductive loopExit :=
| Break                   (* err == io.EOF *)
| Return (e : error)      (* err != nil *)
| OutOfFuel.

(** One pass of the loop body, then the loop again.  The body stores into
    [seen] and [pn.queues] before it looks at [err]. *)
Fixpoint scanLoop (fuel : nat) (f : string) (v : vars)
    (seen : gset N) (pn : queues) : gset N * queues * loopExit :=
  match fuel with
  | O => (seen, pn, OutOfFuel)
  | S fuel' =>
      let '(v', err, rest) := Fscanf f v in
      let seen' := {[ id v' ]} ∪ seen in
      let pn' := <[ id v' := queueOf v' ]> pn in
      match err with
      | Some EOF => (seen', pn', Break)
      | Some e => (seen', pn', Return e)
      | None => scanLoop fuel' rest v' seen' pn'
      end
  end.

(** The eviction loop of lines 226-230. *)
Definition evict (seen : gset N) (pn : queues) : queues :=
  filter (λ kq, kq.1 ∈ seen) pn.

(** [Update]: the file is [inr msg] when it cannot be opened, else its
    content.  The result is the map as the call leaves it and the returned
    error.  Every successful scan consumes input, so the length of the file
    bounds the number of passes. *)
Definition Update (file : string + string) (pn : queues)
  : queues * option error :=
  match file with
  | inr msg => (pn, Some (ErrOpen msg))
  | inl f =>
      match scanLoop (S (String.length f)) f zeroVars ∅ pn with
      | (seen, pn', Break) => (evict seen pn', None)
      | (_, pn', Return e) => (pn', Some e)
      | (_, pn', OutOfFuel) => (pn', Some (ErrScan "out of fuel"))
      end
  end.

(** [ReadProcNetfilter] (lines 234-241). *)
Definition ReadProcNetfilter (file : string + string)
  : option queues * option error :=
  match Update file ∅ with
  | (_, Some e) => (None, Some e)
  | (pn, None) => (Some pn, None)
  end.

End Scan.

(** The accounting line of the specification's scenario and its record. *)
Definition theLine : string := "1 0 0 2 65531 0 0 1 1".

Definition theRecord : ProcNetfilterQueue := mkQueue 1 0 0 2 65531 0 0 1 1.

(** *** The accounting file as the kernel writes it

    One line per queue: the nine numbers in decimal, each padded with
    spaces on the left to the width of its column, one space between two
    columns, a newline at the end.  The widths are a parameter here;
    [kernelWidth] gives those of nfnetlink_queue. *)

Definition decimal (n : N) : string := NilZero.string_of_uint (N.to_uint n).

Fixpoint spaces (k : nat) : string :=
  match k with
  | O => EmptyString
  | S k' => String " " (spaces k')
  end.

Definition padLeft (w : nat) (s : string) : string :=
  spaces (w - String.length s) +:+ s.

Definition fieldsOf (r : ProcNetfilterQueue) : list N :=
  [ID r; PortID r; Waiting r; CopyMode r; CopyRange r;
   QueueDropped r; UserDropped r; LastSeq r; One r].

(** The columns from the [k]-th on. *)
Fixpoint renderFields (width : nat → nat) (k : nat) (ns : list N) : string :=
  match ns with
  | [] => EmptyString
  | n :: ns' =>
      (if (k =? 0)%nat then EmptyString else " ")
      +:+ padLeft (width k) (decimal n)
      +:+ renderFields width (S k) ns'
  end.

Definition renderLine (width : nat → nat) (r : ProcNetfilterQueue) : string :=
  renderFields width 0 (fieldsOf r) +:+ String nl EmptyString.

Fixpoint renderFile (width : nat → nat) (recs : list ProcNetfilterQueue)
  : string :=
  match recs with
  | [] => EmptyString
  | r :: recs' => renderLine width r +:+ renderFile width recs'
  end.

Definition kernelWidth (k : nat) : nat := nth k [5; 6; 5; 1; 5; 5; 5; 8; 2]%nat 0%nat.

(** Every field fits a 64-bit [uint]. *)
Definition validQueue (r : ProcNetfilterQueue) : Prop :=
  Forall (λ n, (n < maxUint)%N) (fieldsOf r).

(** The records stored one after the other, a later one replacing an
    earlier one of the same id. *)
Definition storeAll (recs : list ProcNetfilterQueue) (pn : queues) : queues :=
  foldl (λ m r, <[ ID r := r ]> m) pn recs.

(** The variables after a line was read into them. *)
Definition varsOf (r : ProcNetfilterQueue) : vars :=
  mkVars (ID r) (PortID r) (Waiting r) (CopyMode r) (CopyRange r)
         (QueueDropped r) (UserDropped r) (LastSeq r) (One r).

(** Storing through the operand pointers from the [k]-th on. *)
Fixpoint assignAll (k : nat) (ns : list N) (v : vars) : vars :=
  match ns with
  | [] => v
  | n :: ns' => assignAll (S k) ns' (assign k n v)
  end.

(** What the variables hold and what is marked as seen after the lines. *)
Definition lastVars (recs : list ProcNetfilterQueue) (v : vars) : vars :=
  foldl (λ _ r, varsOf r) v recs.

Definition seenAll (recs : list ProcNetfilterQueue) (seen : gset N) : gset N :=
  foldl (λ s r, {[ ID r ]} ∪ s) seen recs.

(** The next byte, if there is one, is not a digit. *)
Definition noDigitAhead (s : string) : Prop :=
  match s with
  | EmptyString => True
  | String c _ => isDigit c = false
  end.

(** Every record of the snapshot is stored under its own id. *)
Definition keyedByID (pn : queues) : Prop :=
  ∀ i r, Get pn i = (r, true) → ID r = i.

(** A file of three lines, the last for the queue of the first again. *)
Definition exampleRecords : list ProcNetfilterQueue :=
  [theRecord; mkQueue 7 4021 3 2 65531 0 1 12 1; mkQueue 1 0 5 2 65531 2 0 9 1].

End ProcNetfilter.


(** ** The drain controller (netqueue.go, lines 65-163) *)

Module NetfilterQueue.

(** [net.IP] is a byte slice: 4 bytes, or 16 bytes for the IPv6 form. *)
Definition IP := list N.

(** [ip.To4()]: the 4-byte form of an IPv4 address, also when it is stored
    as an IPv4-mapped 16-byte address; [None] is Go's nil result. *)
Definition To4 (ip : IP) : option IP :=
  if (length ip =? 4)%nat then Some ip
  else if (length ip =? 16)%nat
          && forallb (N.eqb 0) (take 10 ip)
          && forallb (N.eqb 255) (take 2 (drop 10 ip))
  then Some (drop 12 ip)
  else None.

Definition utoa (n : N) : string := NilZero.string_of_uint (N.to_uint n).

(** [ip.String()] of an address whose [To4] is [ip4]: dotted decimal. *)
Definition String4 (ip4 : IP) : string :=
  utoa (nth 0 ip4 0%N) +:+ "." +:+ utoa (nth 1 ip4 0%N) +:+ "." +:+
  utoa (nth 2 ip4 0%N) +:+ "." +:+ utoa (nth 3 ip4 0%N).

(** [strconv.Itoa(int(n))] for a 64-bit [uint]. *)
Definition intOfUint (n : N) : Z :=
  if (n <? 2 ^ 63)%N then Z.of_N n else (Z.of_N n - 2 ^ 64)%Z.

Definition Itoa (z : Z) : string := NilZero.string_of_int (Z.to_int z).

(** The configuration of the struct of lines 65-70; its three channels are
    part of the [state] below. *)
Record NetfilterQueue := mkQ {
  Number : N;
  IPs : list IP
}.

Inductive flag := iptablesAddFlag | iptablesDeleteFlag.

Definition flagString (f : flag) : string :=
  match f with iptablesAddFlag => "-A" | iptablesDeleteFlag => "-D" end.

(** What the program does that can be observed, in the order it happens. *)
Inductive event :=
| EvNewNFQueue (num : N)                        (* line 108, with uint16(q.Number) *)
| EvQueueClose                                  (* the deferred call of line 112 *)
| EvRecvCapture                                 (* line 137 *)
| EvAccepting (b : bool)                        (* lines 138 and 145 *)
| EvLogOnlyIPv4 (ip : IP)                       (* line 87 *)
| EvExec (args : list string) (err : option string)  (* line 97 and its result *)
| EvSendCapturing                               (* line 142 *)
| EvRecvRelease                                 (* line 143 *)
| EvSignal                                      (* line 146 *)
| EvPanic (msg : string)                        (* the process dies of a panic *)
| EvPacket (p : nat)                            (* line 121 *)
| EvVerdictAccept (p : nat)                     (* line 126 *)
| EvLogDelayed (n : Z)                          (* line 129 *)
| EvCaptureReturn                               (* Capture returns *)
| EvReleaseReturn.                              (* Release returns *)

(** The argument vector of lines 90-95. *)
Definition iptablesArgs (q : NetfilterQueue) (f : flag) (ip4 : IP) : list string :=
  [flagString f; "INPUT"; "-j"; "NFQUEUE"; "-w";
   "-p"; "tcp"; "--syn"; "--destination"; String4 ip4;
   "--queue-num"; Itoa (intOfUint (Number q))].

(** One pass of the range loop of [iptables] (lines 85-101) for the address
    [ip]; [r] is the error of the command, should it run.  The result is the
    events of the pass and the message of the panic, if it panics. *)
Definition iptablesIter (q : NetfilterQueue) (f : flag) (ip : IP)
    (r : option string) : list event * option string :=
  match To4 ip with
  | None => ([EvLogOnlyIPv4 ip], None)
  | Some ip4 =>
      ([EvExec (iptablesArgs q f ip4) r],
       match r with
       | Some err => Some ("iptables failed: " +:+ err)
       | None => None
       end)
  end.

(** [q.iptables(flag)] as one call over the addresses [ips]; [rs] gives the
    result of the command for each address in turn. *)
Fixpoint iptablesOver (q : NetfilterQueue) (f : flag) (ips : list IP)
    (rs : list (option string)) : list event * option string :=
  match ips with
  | [] => ([], None)
  | ip :: ips' =>
      match iptablesIter q f ip (hd None rs) with
      | (evs, Some msg) => (evs, Some msg)
      | (evs, None) =>
          let '(evs', p) := iptablesOver q f ips' (tl rs) in (evs ++ evs', p)
      end
  end.

Definition iptables (q : NetfilterQueue) (f : flag)
    (rs : list (option string)) : list event * option string :=
  iptablesOver q f (IPs q) rs.

(** The events of the call when every command succeeds. *)
Definition iptablesEvents (q : NetfilterQueue) (f : flag) (ips : list IP)
  : list event :=
  flat_map (λ ip, (iptablesIter q f ip None).1) ips.

(** Program points of the goroutine that runs [loop] (lines 104-148). *)
Inductive loop_pc :=
| LEntry                        (* line 105 *)
| LReturned                     (* line 106 *)
| LNewNFQueue                   (* lines 108-134 *)
| LRecvCapture                  (* line 137 *)
| LCloseGate                    (* line 138 *)
| LIptables (f : flag) (i : nat) (* inside q.iptables(f), at index i of the range *)
| LDefer                        (* line 141 *)
| LSendCapturing                (* line 142 *)
| LRecvRelease                  (* line 143 *)
| LOpenGate                     (* line 145 *)
| LSignal.                      (* line 146 *)

(** Program points of the packet goroutine (lines 117-134). *)
Inductive packet_pc :=
| PNotStarted
| PSelect                       (* line 120 *)
| PCheck (p : nat)              (* line 122, holding packet p *)
| PCallWait (p : nat)           (* line 123, before the wait is registered *)
| PWaiting (p : nat).           (* line 123, asleep in accept.Wait() *)

(** The three channels have capacity one: a channel is [true] when it holds
    its token.  [inCapture] counts the callers of [Capture] that are between
    lines 154 and 155.  The mutex of the condition variable is locked once
    at line 116 and afterwards only released and retaken by [Wait] in the
    packet goroutine, so it never blocks anyone and is left out; reads and
    writes of [accepting] are taken in program order. *)
Record state := mkState {
  capture : bool;
  capturing : bool;
  release : bool;
  accepting : bool;
  lpc : loop_pc;
  panicking : option string;
  aborted : option string;
  ppc : packet_pc;
  count : Z;
  inCapture : nat;
  trace : list event
}.

Definition init : state :=
  mkState false false false true LEntry None None PNotStarted 0 0 [].

(** Writing one field of the state, and adding to the trace. *)
Definition setCapture b s :=
  mkState b (capturing s) (release s) (accepting s)
    (lpc s) (panicking s) (aborted s) (ppc s)
    (count s) (inCapture s) (trace s).
Definition setCapturing b s :=
  mkState (capture s) b (release s) (accepting s)
    (lpc s) (panicking s) (aborted s) (ppc s)
    (count s) (inCapture s) (trace s).
Definition setRelease b s :=
  mkState (capture s) (capturing s) b (accepting s)
    (lpc s) (panicking s) (aborted s) (ppc s)
    (count s) (inCapture s) (trace s).
Definition setAccepting b s :=
  mkState (capture s) (capturing s) (release s) b
    (lpc s) (panicking s) (aborted s) (ppc s)
    (count s) (inCapture s) (trace s).
Definition goto pc s :=
  mkState (capture s) (capturing s) (release s) (accepting s)
    pc (panicking s) (aborted s) (ppc s)
    (count s) (inCapture s) (trace s).
Definition setPanicking m s :=
  mkState (capture s) (capturing s) (release s) (accepting s)
    (lpc s) m (aborted s) (ppc s)
    (count s) (inCapture s) (trace s).
Definition setAborted m s :=
  mkState (capture s) (capturing s) (release s) (accepting s)
    (lpc s) (panicking s) m (ppc s)
    (count s) (inCapture s) (trace s).
Definition setPpc pc s :=
  mkState (capture s) (capturing s) (release s) (accepting s)
    (lpc s) (panicking s) (aborted s) pc
    (count s) (inCapture s) (trace s).
Definition setCount n s :=
  mkState (capture s) (capturing s) (release s) (accepting s)
    (lpc s) (panicking s) (aborted s) (ppc s)
    n (inCapture s) (trace s).
Definition setInCapture n s :=
  mkState (capture s) (capturing s) (release s) (accepting s)
    (lpc s) (panicking s) (aborted s) (ppc s)
    (count s) n (trace s).
Definition log evs s :=
  mkState (capture s) (capturing s) (release s) (accepting s)
    (lpc s) (panicking s) (aborted s) (ppc s)
    (count s) (inCapture s) (trace s ++ evs).

(** [count++] on a 64-bit [int]. *)
Definition wrapInt (z : Z) : Z := ((z + 2 ^ 63) mod 2 ^ 64 - 2 ^ 63)%Z.

(** A panic that no deferred call of the function literal is left to
    intercept: it leaves [loop], whose deferred [queue.Close()] runs once the
    queue exists, and the process dies. *)
Definition abort (closing : bool) (msg : string) (s : state) : state :=
  setAborted (Some msg)
    (log ((if closing then [EvQueueClose] else []) ++ [EvPanic msg]) s).

(** A panic in the body of the function literal, after the [defer] of line
    141: the deferred [q.iptables(iptablesDeleteFlag)] runs first. *)
Definition panicInBody (msg : string) (s : state) : state :=
  goto (LIptables iptablesDeleteFlag 0) (setPanicking (Some msg) s).

(** [accept.Signal()]: wakes the packet goroutine if it sleeps in [Wait],
    which then tests [accepting] again. *)
Definition signal (s : state) : state :=
  setPpc (match ppc s with PWaiting p => PCheck p | pc => pc end) s.

(** The next statement of [loop].  [r] is the error of the external call
    the statement makes, if it makes one ([None]: it succeeded).  The result
    is [None] when the goroutine cannot move: it has returned, or it waits on
    a channel. *)
Definition loopStep (q : NetfilterQueue) (r : option string) (s : state)
  : option state :=
  match lpc s with
  | LEntry =>
      Some (goto (if (length (IPs q) =? 0)%nat then LReturned else LNewNFQueue) s)
  | LReturned => None
  | LNewNFQueue =>
      let s1 := log [EvNewNFQueue (Number q mod 2 ^ 16)%N] s in
      match r with
      | Some err => Some (abort false err s1)
      | None => Some (goto LRecvCapture (setPpc PSelect (setAccepting true s1)))
      end
  | LRecvCapture =>
      if capture s
      then Some (goto LCloseGate (log [EvRecvCapture] (setCapture false s)))
      else None
  | LCloseGate =>
      Some (goto (LIptables iptablesAddFlag 0)
              (log [EvAccepting false] (setAccepting false s)))
  | LIptables f i =>
      match IPs q !! i with
      | Some ip =>
          match iptablesIter q f ip r with
          | (evs, Some msg) => Some (abort true msg (log evs s))
          | (evs, None) => Some (goto (LIptables f (S i)) (log evs s))
          end
      | None =>
          match f with
          | iptablesAddFlag => Some (goto LDefer s)
          | iptablesDeleteFlag =>
              match panicking s with
              | Some msg => Some (abort true msg s)
              | None => Some (goto LOpenGate s)
              end
          end
      end
  | LDefer => Some (goto LSendCapturing s)
  | LSendCapturing =>
      if capturing s then None
      else Some (goto LRecvRelease (log [EvSendCapturing] (setCapturing true s)))
  | LRecvRelease =>
      if release s
      then Some (goto (LIptables iptablesDeleteFlag 0)
                   (log [EvRecvRelease] (setRelease false s)))
      else None
  | LOpenGate =>
      Some (goto LSignal (log [EvAccepting true] (setAccepting true s)))
  | LSignal => Some (goto LRecvCapture (log [EvSignal] (signal s)))
  end.

(** The packet goroutine between two suspension points of line 120-126. *)
Definition packetStep (s : state) : option state :=
  match ppc s with
  | PCheck p =>
      if accepting s
      then Some (setPpc PSelect
                   (log [EvVerdictAccept p] (setCount (wrapInt (count s + 1)) s)))
      else Some (setPpc (PCallWait p) s)
  | PCallWait p => Some (setPpc (PWaiting p) s)
  | _ => None
  end.

(** [case packet := <-queue.GetPackets()]. *)
Definition packetArrives (p : nat) (s : state) : option state :=
  match ppc s with
  | PSelect => Some (setPpc (PCheck p) (log [EvPacket p] s))
  | _ => None
  end.

(** [case <-time.After(packetTimeout)] (lines 127-131). *)
Definition packetTimeout (s : state) : option state :=
  match ppc s with
  | PSelect =>
      if (0 <? count s)%Z
      then Some (setCount 0 (log [EvLogDelayed (count s)] s))
      else Some s
  | _ => None
  end.

(** [Capture] up to its send (lines 150-154); [None] when the send blocks. *)
Definition CaptureSend (q : NetfilterQueue) (s : state) : option state :=
  if (length (IPs q) =? 0)%nat then Some (log [EvCaptureReturn] s)
  else if capture s then None
  else Some (setInCapture (S (inCapture s)) (setCapture true s)).

(** [Capture] at its receive (line 155). *)
Definition CaptureRecv (s : state) : option state :=
  match inCapture s with
  | O => None
  | S n =>
      if capturing s
      then Some (log [EvCaptureReturn] (setInCapture n (setCapturing false s)))
      else None
  end.

(** [Release] (lines 158-163); [None] when the send blocks. *)
Definition Release (q : NetfilterQueue) (s : state) : option state :=
  if (length (IPs q) =? 0)%nat then Some (log [EvReleaseReturn] s)
  else if release s then None
  else Some (log [EvReleaseReturn] (setRelease true s)).

(** Who moves next, with what the environment decides for the move.
    [BodyPanics] stands for a run-time panic raised while the body of the
    function literal of lines 139-144 runs; the two channel operations of
    the body raise none, and the label is there so that the [defer] of line
    141 can be observed on both ways out of the function. *)
Inductive label :=
| Loop (r : option string)
| BodyPanics (msg : string)
| PacketArrives (p : nat)
| PacketTimeout
| PacketTask
| CallCapture
| ReturnCapture
| CallRelease.

(** Nothing moves once the process has died. *)
Definition step (q : NetfilterQueue) (l : label) (s : state) : option state :=
  match aborted s with
  | Some _ => None
  | None =>
      match l with
      | Loop r => loopStep q r s
      | BodyPanics msg =>
          match lpc s with
          | LSendCapturing | LRecvRelease => Some (panicInBody msg s)
          | _ => None
          end
      | PacketArrives p => packetArrives p s
      | PacketTimeout => packetTimeout s
      | PacketTask => packetStep s
      | CallCapture => CaptureSend q s
      | ReturnCapture => CaptureRecv s
      | CallRelease => Release q s
      end
  end.

Fixpoint run (q : NetfilterQueue) (ls : list label) (s : state) : option state :=
  match ls with
  | [] => Some s
  | l :: ls' =>
      match step q l s with
      | Some s' => run q ls' s'
      | None => None
      end
  end.

Inductive reachable (q : NetfilterQueue) : state → Prop :=
| reachable_init : reachable q init
| reachable_step s l s' :
    reachable q s → step q l s = Some s' → reachable q s'.

(** The events of the drain sessions proper, as [loop] produces them. *)
Definition isSessionEvent (e : event) : bool :=
  match e with
  | EvRecvCapture | EvAccepting _ | EvLogOnlyIPv4 _ | EvExec _ _
  | EvSendCapturing | EvRecvRelease | EvSignal => true
  | _ => false
  end.

Definition sessionTrace (s : state) : list event :=
  List.filter isSessionEvent (trace s).

(** One whole pass of the loop of lines 136-147 in which every command
    succeeds. *)
Definition sessionEvents (q : NetfilterQueue) : list event :=
  [EvRecvCapture; EvAccepting false]
  ++ iptablesEvents q iptablesAddFlag (IPs q)
  ++ [EvSendCapturing; EvRecvRelease]
  ++ iptablesEvents q iptablesDeleteFlag (IPs q)
  ++ [EvAccepting true; EvSignal].

(** What the current pass of the loop has produced when it stands at [pc]
    and no command has failed. *)
Definition passEvents (q : NetfilterQueue) (pc : loop_pc) : list event :=
  let opened := [EvRecvCapture; EvAccepting false] in
  let installed := opened ++ iptablesEvents q iptablesAddFlag (IPs q) in
  let released := installed ++ [EvSendCapturing; EvRecvRelease] in
  match pc with
  | LEntry | LReturned | LNewNFQueue | LRecvCapture => []
  | LCloseGate => [EvRecvCapture]
  | LIptables iptablesAddFlag i =>
      opened ++ iptablesEvents q iptablesAddFlag (take i (IPs q))
  | LDefer | LSendCapturing => installed
  | LRecvRelease => installed ++ [EvSendCapturing]
  | LIptables iptablesDeleteFlag i =>
      released ++ iptablesEvents q iptablesDeleteFlag (take i (IPs q))
  | LOpenGate => released ++ iptablesEvents q iptablesDeleteFlag (IPs q)
  | LSignal =>
      released ++ iptablesEvents q iptablesDeleteFlag (IPs q) ++ [EvAccepting true]
  end.

(** While no command has failed and nothing has panicked, the session trace
    ends with what the current pass has produced; between two passes it is
    empty or ends with a whole pass. *)
Definition shapeAt (q : NetfilterQueue) (pc : loop_pc) (tr : list event) : Prop :=
  match pc with
  | LRecvCapture => tr = [] ∨ sessionEvents q `suffix_of` tr
  | LEntry | LReturned | LNewNFQueue => tr = []
  | pc => passEvents q pc `suffix_of` tr
  end.

Definition shape (q : NetfilterQueue) (s : state) : Prop :=
  panicking s = None → aborted s = None → shapeAt q (lpc s) (sessionTrace s).

(** [precededBy X P tr]: wherever an event of the kind [X] occurs in [tr],
    what comes before it satisfies [P]. *)
Definition precededBy (X : event → Prop) (P : list event → Prop)
    (tr : list event) : Prop :=
  ∀ pre x post, tr = pre ++ x :: post → X x → P pre.

(** The session event that the statement at [pc] can add to the trace. *)
Definition emits (q : NetfilterQueue) (pc : loop_pc) (e : event) : Prop :=
  match pc with
  | LRecvCapture => e = EvRecvCapture
  | LCloseGate => e = EvAccepting false
  | LIptables f i =>
      ∃ ip r, IPs q !! i = Some ip ∧ (iptablesIter q f ip r).1 = [e]
  | LSendCapturing => e = EvSendCapturing
  | LRecvRelease => e = EvRecvRelease
  | LOpenGate => e = EvAccepting true
  | LSignal => e = EvSignal
  | _ => False
  end.

(** An install command, whatever its result. *)
Definition isInstall (q : NetfilterQueue) (e : event) : Prop :=
  ∃ ip4 r, e = EvExec (iptablesArgs q iptablesAddFlag ip4) r.

(** The queue of the specification's scenario: addresses 10.0.0.1 and
    10.0.0.2, queue number 100. *)
Definition exampleQueue : NetfilterQueue :=
  mkQ 100 [[10; 0; 0; 1]; [10; 0; 0; 2]]%N.

(** A trace in which calls return and nothing else happens. *)
Definition onlyReturns (tr : list event) : Prop :=
  Forall (λ e, e = EvCaptureReturn ∨ e = EvReleaseReturn) tr.

(** The program points between the closing of the gate and its opening. *)
Definition inSession (pc : loop_pc) : bool :=
  match pc with
  | LIptables _ _ | LDefer | LSendCapturing | LRecvRelease | LOpenGate => true
  | _ => false
  end.

(** The labels of one whole drain session in which [Capture] is called,
    every command succeeds and nobody calls [Release]. *)
Definition sessionLabels (q : NetfilterQueue) : list label :=
  [CallCapture; Loop None; Loop None]
  ++ repeat (Loop None) (length (IPs q))
  ++ [Loop None; Loop None; Loop None; Loop None]
  ++ repeat (Loop None) (length (IPs q))
  ++ [Loop None; Loop None; Loop None].

(** No drain session is active and none is asked for. *)
Definition idle (s : state) : Prop :=
  lpc s = LRecvCapture ∧ capture s = false ∧ aborted s = None.

(** The verdicts issued since the last "Delayed ... packages" line. *)
Definition verdictsSinceLog (tr : list event) : Z :=
  fold_left (λ n e,
    match e with
    | EvVerdictAccept _ => (n + 1)%Z
    | EvLogDelayed _ => 0%Z
    | _ => n
    end) tr 0%Z.

(** *** Three sentences of the specification, as they are written *)

(** "The transition to accepting = false happens only after the install
    command for every configured address has run." *)
Definition installBeforeGateCloses (q : NetfilterQueue) : Prop :=
  ∀ s, reachable q s →
  ∀ pre post, sessionTrace s = pre ++ EvAccepting false :: post →
  ∀ e, e ∈ iptablesEvents q iptablesAddFlag (IPs q) → e ∈ pre.

(** "Packets accepted with the gate open at arrival do not increment the
    counter." *)
Definition openGateNotCounted (q : NetfilterQueue) : Prop :=
  ∀ s p s', reachable q s → ppc s = PCheck p → accepting s = true →
  step q PacketTask s = Some s' → count s' = count s.

(** "A Release called when no drain session is active never blocks." *)
Definition idleReleaseNeverBlocks (q : NetfilterQueue) : Prop :=
  ∀ s, reachable q s → idle s → is_Some (step q CallRelease s).

(** *** States of the example queue *)

(** A queue without addresses. *)
Definition emptyQueue : NetfilterQueue := mkQ 100 [].

Definition afterRun (q : NetfilterQueue) (ls : list label) : state :=
  default init (run q ls init).

(** The loop has started the packet goroutine and waits for a capture. *)
Definition startLabels : list label := [Loop None; Loop None].

Definition started : state :=
  Eval vm_compute in afterRun exampleQueue startLabels.

(** [Capture] was called and the loop has just closed the gate. *)
Definition gateClosedLabels : list label :=
  startLabels ++ [CallCapture; Loop None; Loop None].

Definition gateClosed : state :=
  Eval vm_compute in afterRun exampleQueue gateClosedLabels.

(** The loop has installed both rules and acknowledged the capture. *)
Definition acknowledgedLabels : list label :=
  gateClosedLabels ++ repeat (Loop None) 5.

Definition acknowledged : state :=
  Eval vm_compute in afterRun exampleQueue acknowledgedLabels.

(** [Capture] has returned and [Release] was called. *)
Definition releasedLabels : list label :=
  acknowledgedLabels ++ [ReturnCapture; CallRelease].

Definition released : state :=
  Eval vm_compute in afterRun exampleQueue releasedLabels.

(** The session is over and the loop has taken up a second capture. *)
Definition secondSessionLabels : list label :=
  releasedLabels ++ repeat (Loop None) 6 ++ [CallCapture; Loop None].

Definition secondSession : state :=
  Eval vm_compute in afterRun exampleQueue secondSessionLabels.

(** [Release] was called on the idle queue. *)
Definition staleReleaseLabels : list label := startLabels ++ [CallRelease].

Definition staleRelease : state :=
  Eval vm_compute in afterRun exampleQueue staleReleaseLabels.

(** A packet has arrived while the gate has never been closed. *)
Definition packetLabels : list label := startLabels ++ [PacketArrives 7].

Definition packetInHand : state :=
  Eval vm_compute in afterRun exampleQueue packetLabels.

(** Calls on the queue without addresses. *)
Definition emptyLabels : list label := [Loop None; CallCapture; CallRelease].

Definition emptyCalled : state :=
  Eval vm_compute in afterRun emptyQueue emptyLabels.

(** A packet was accepted through the open gate and the next one taken. *)
Definition verdictLabels : list label :=
  packetLabels ++ [PacketTask; PacketArrives 8].

Definition verdictGiven : state :=
  Eval vm_compute in afterRun exampleQueue verdictLabels.

(** *** Counting and projecting events *)

Definition b2n (b : bool) : nat := if b then 1%nat else 0%nat.

Definition countEv (P : event → bool) (tr : list event) : nat :=
  length (List.filter P tr).

Definition isSendCapturing (e : event) : bool :=
  match e with EvSendCapturing => true | _ => false end.

Definition isCaptureReturn (e : event) : bool :=
  match e with EvCaptureReturn => true | _ => false end.

Definition isReleaseReturn (e : event) : bool :=
  match e with EvReleaseReturn => true | _ => false end.

Definition isRecvRelease (e : event) : bool :=
  match e with EvRecvRelease => true | _ => false end.

Definition isRecvCapture (e : event) : bool :=
  match e with EvRecvCapture => true | _ => false end.


(** The packets taken from the queue and the packets given a verdict, in
    the order of the trace, and the packet that the goroutine holds. *)
Definition packetsOf (tr : list event) : list nat :=
  omap (λ e, match e with EvPacket p => Some p | _ => None end) tr.

Definition verdictsOf (tr : list event) : list nat :=
  omap (λ e, match e with EvVerdictAccept p => Some p | _ => None end) tr.

Definition inHand (pc : packet_pc) : list nat :=
  match pc with
  | PCheck p | PCallWait p | PWaiting p => [p]
  | _ => []
  end.

(** *** The rules that the commands leave in the INPUT chain

    A rule is the argument vector after the flag.  [iptables -A] appends the
    rule to the chain, [iptables -D] deletes the first rule of the chain that
    is equal to it; a command that fails changes nothing. *)

Fixpoint removeFirst (r : list string) (fw : list (list string))
  : list (list string) :=
  match fw with
  | [] => []
  | x :: fw' => if decide (x = r) then fw' else x :: removeFirst r fw'
  end.

Definition applyExec (fw : list (list string)) (e : event)
  : list (list string) :=
  match e with
  | EvExec (fl :: r) None =>
      if decide (fl = "-A") then fw ++ [r]
      else if decide (fl = "-D") then removeFirst r fw
      else fw
  | _ => fw
  end.

(** The rules of this program in the chain after the trace. *)
Definition firewall (tr : list event) : list (list string) :=
  fold_left applyExec tr [].

Definition ruleOf (q : NetfilterQueue) (ip4 : IP) : list string :=
  tail (iptablesArgs q iptablesAddFlag ip4).

(** The rules for the IPv4 addresses among [ips], in their order. *)
Definition rulesFor (q : NetfilterQueue) (ips : list IP) : list (list string) :=
  ruleOf q <$> omap To4 ips.

(** The rules in the chain when the loop stands at [pc]. *)
Definition expectedRules (q : NetfilterQueue) (pc : loop_pc)
  : list (list string) :=
  match pc with
  | LIptables iptablesAddFlag i => rulesFor q (take i (IPs q))
  | LDefer | LSendCapturing | LRecvRelease => rulesFor q (IPs q)
  | LIptables iptablesDeleteFlag i => rulesFor q (drop i (IPs q))
  | _ => []
  end.

(** *** A schedule that loses the signal

    A capture, a packet that finds the gate closed and decides to wait, the
    return of [Capture], the release with the whole removal and [Signal]
    before the packet goroutine has entered [Wait], and then its entering. *)
Definition lostSignalLabels (q : NetfilterQueue) (p : nat) : list label :=
  [Loop None; Loop None; CallCapture; Loop None; Loop None]
  ++ repeat (Loop None) (length (IPs q))
  ++ [Loop None; Loop None; Loop None;
      PacketArrives p; PacketTask; ReturnCapture; CallRelease; Loop None]
  ++ repeat (Loop None) (length (IPs q))
  ++ [Loop None; Loop None; Loop None; PacketTask].

(** *** [ipArgs] (lines 43-57) *)

(** [strings.Split(s, ",")]. *)
Fixpoint Split (s : string) : list string :=
  match s with
  | EmptyString => [EmptyString]
  | String c s' =>
      if Ascii.eqb c ","%char then EmptyString :: Split s'
      else match Split s' with
           | p :: ps => String c p :: ps
           | [] => [String c EmptyString]
           end
  end.

(** The pieces put together again with commas between them. *)
Fixpoint joinComma (ps : list string) : string :=
  match ps with
  | [] => EmptyString
  | [p] => p
  | p :: ps' => p +:+ String ","%char (joinComma ps')
  end.

Fixpoint commaFree (p : string) : bool :=
  match p with
  | EmptyString => true
  | String c p' => negb (Ascii.eqb c ","%char) && commaFree p'
  end.

Section IpArgs.

(** [net.ParseIP]; [None] is its nil result. *)
Variable ParseIP : string → option IP.

(** The loop of lines 49-55 over the pieces. *)
Fixpoint parseAll (ps : list string) : list IP + string :=
  match ps with
  | [] => inl []
  | p :: ps' =>
      match ParseIP p with
      | None => inr ("incorrect IP: " +:+ p)
      | Some ip =>
          match parseAll ps' with
          | inl ips => inl (ip :: ips)
          | inr e => inr e
          end
      end
  end.

(** [ipArgs]: the addresses, or the message of the error. *)
Definition ipArgs (arg : string) : list IP + string :=
  if (String.length arg =? 0)%nat then inl [] else parseAll (Split arg).

End IpArgs.

(** What [net.ParseIP] returns for the two addresses of the example queue,
    in the 16-byte form in which it returns an IPv4 address; an instance for
    the examples, nil for every other string. *)
Definition exampleParseIP (s : string) : option IP :=
  if String.eqb s "10.0.0.1"
  then Some [0; 0; 0; 0; 0; 0; 0; 0; 0; 0; 255; 255; 10; 0; 0; 1]%N
  else if String.eqb s "10.0.0.2"
  then Some [0; 0; 0; 0; 0; 0; 0; 0; 0; 0; 255; 255; 10; 0; 0; 2]%N
  else None.

End NetfilterQueue.

(** * Properties of the accounting reader *)

Section ProcNetfilterFacts.

Import ProcNetfilter.

Variable partialEOF : error.

(** **** The scanner consumes its input *)

Lemma SkipSpace_length s s1 :
  SkipSpace s = inl s1 → (String.length s1 <= String.length s)%nat.
Proof.
  revert s1; induction s as [|c s IH]; simpl; intros s1 H.
  - injection H as <-. simpl. lia.
  - destruct (isNewline c); [discriminate|].
    destruct (isSpace c).
    + apply IH in H. lia.
    + injection H as <-. simpl. lia.
Qed.

Lemma skipBlanks_length s : (String.length (skipBlanks s) <= String.length s)%nat.
Proof.
  induction s as [|c s IH]; simpl; [lia|].
  destruct (isSpace c && negb (isNewline c)); simpl; lia.
Qed.

Lemma acceptDigits_length s acc :
  (String.length (acceptDigits s acc).2 <= String.length s)%nat.
Proof.
  revert acc; induction s as [|c s IH]; simpl; intros acc; [lia|].
  destruct (isDigit c); simpl; [specialize (IH (10 * acc + digitVal c)%N)|]; lia.
Qed.

Lemma scanUint_length s x s2 :
  scanUint s = inl (x, s2) → (String.length s2 < String.length s)%nat.
Proof.
  unfold scanUint. destruct (SkipSpace s) as [s1|] eqn:Hs; [|discriminate].
  apply SkipSpace_length in Hs.
  destruct s1 as [|c s1]; [discriminate|].
  destruct (isDigit c); [|discriminate].
  pose proof (acceptDigits_length s1 (digitVal c)) as Hd.
  destruct (acceptDigits s1 (digitVal c)) as [v rest].
  destruct (v <? maxUint)%N; [|discriminate].
  intros [= <- <-]. simpl in *. lia.
Qed.

Lemma advanceSpace_length s s1 :
  advanceSpace s = inl s1 → (String.length s1 <= String.length s)%nat.
Proof.
  destruct s as [|c s]; simpl.
  - intros [= <-]. simpl. lia.
  - destruct (isSpace c); simpl; [|discriminate].
    destruct (isNewline c); [discriminate|].
    intros [= <-]. pose proof (skipBlanks_length s). lia.
Qed.

Lemma advanceNewline_length s s1 :
  advanceNewline s = inl s1 → (String.length s1 <= String.length s)%nat.
Proof.
  unfold advanceNewline. pose proof (skipBlanks_length s) as H.
  destruct (skipBlanks s) as [|c r].
  - intros [= <-]. simpl. lia.
  - destruct (isNewline c); [|discriminate].
    intros [= <-]. simpl in H. lia.
Qed.

Lemma scanFields_length k n s v v' rest :
  scanFields partialEOF k n s v = (v', None, rest) →
  (String.length rest + n <= String.length s)%nat.
Proof.
  revert k s v; induction n as [|n IH]; intros k s v; simpl.
  - destruct (advanceNewline s) as [r|] eqn:Hn; [|discriminate].
    intros [= _ <-]. apply advanceNewline_length in Hn. lia.
  - destruct (if (k =? 0)%nat then inl s else advanceSpace s) as [s1|] eqn:Ha;
      [|discriminate].
    assert (String.length s1 <= String.length s)%nat as Hs1.
    { destruct (k =? 0)%nat.
      - injection Ha as <-. lia.
      - by apply advanceSpace_length. }
    destruct (scanUint s1) as [[x s2]|e] eqn:Hu.
    + intros H. apply IH in H. apply scanUint_length in Hu. lia.
    + destruct e; discriminate.
Qed.

Lemma Fscanf_consumes f v v' rest :
  Fscanf partialEOF f v = (v', None, rest) →
  (String.length rest < String.length f)%nat.
Proof. intros H. apply scanFields_length in H. lia. Qed.

(** The fuel that [Update] gives to the loop is never used up. *)
Lemma scanLoop_fuel fuel f v seen pn :
  (String.length f < fuel)%nat →
  (scanLoop partialEOF fuel f v seen pn).2 ≠ OutOfFuel.
Proof.
  revert f v seen pn; induction fuel as [|fuel IH]; intros f v seen pn Hlt; [lia|].
  simpl. destruct (Fscanf partialEOF f v) as [[v' err] rest] eqn:Hf.
  destruct err as [e|].
  - destruct e; simpl; discriminate.
  - apply IH. apply Fscanf_consumes in Hf. lia.
Qed.

Lemma Update_fuel f v seen pn :
  (scanLoop partialEOF (S (String.length f)) f v seen pn).2 ≠ OutOfFuel.
Proof. apply scanLoop_fuel. lia. Qed.

(** **** Lookups after the eviction loop *)

Lemma Get_evict_seen (seen : gset N) (pn : queues) i q :
  pn !! i = Some q → i ∈ seen → Get (evict seen pn) i = (q, true).
Proof.
  intros Hq Hi. unfold Get, evict.
  by rewrite (map_lookup_filter_Some_2 _ _ _ _ Hq Hi).
Qed.

Lemma Get_evict_unseen (seen : gset N) (pn : queues) i :
  i ∉ seen → Get (evict seen pn) i = (zeroQueue, false).
Proof.
  intros Hi. unfold Get, evict.
  destruct (filter _ pn !! i) as [q|] eqn:Hq; [|done].
  apply map_lookup_filter_Some in Hq as [_ Hq]. done.
Qed.

(** Whatever the loop marks as seen it has stored. *)
Lemma scanLoop_seen_stored fuel : ∀ f v (seen : gset N) (pn : queues) seen' pn' ex,
  scanLoop partialEOF fuel f v seen pn = (seen', pn', ex) →
  (∀ i, i ∈ seen → is_Some (pn !! i)) →
  ∀ i, i ∈ seen' → is_Some (pn' !! i).
Proof.
  induction fuel as [|fuel IH]; intros f v seen pn seen' pn' ex; simpl.
  - intros [= <- <- <-]. done.
  - destruct (Fscanf partialEOF f v) as [[v' err] rest].
    assert ((∀ i, i ∈ seen → is_Some (pn !! i)) →
            ∀ i, i ∈ {[id v']} ∪ seen →
                 is_Some (<[id v':=queueOf v']> pn !! i)) as Hstored.
    { intros Hseen i Hi. destruct (decide (i = id v')) as [Heq|Hne].
      - rewrite Heq, lookup_insert_eq. eauto.
      - rewrite lookup_insert_ne by done. apply Hseen.
        apply elem_of_union in Hi as [Hi|Hi]; [|done].
        apply elem_of_singleton in Hi. done. }
    destruct err as [e|].
    + destruct e; intros [= <- <- <-] Hseen; by apply Hstored.
    + intros Hloop Hseen. eapply IH; [exact Hloop|]. by apply Hstored.
Qed.

(** After a refresh that succeeds, [Get] finds exactly the ids that the scan
    loop marked as seen. *)
Lemma Update_found_iff_seen f (pn : queues) seen pn' :
  scanLoop partialEOF (S (String.length f)) f zeroVars ∅ pn = (seen, pn', Break) →
  (Update partialEOF (inl f) pn).2 = None
  ∧ ∀ i, (Get (Update partialEOF (inl f) pn).1 i).2 = true ↔ i ∈ seen.
Proof.
  intros Hloop. unfold Update. rewrite Hloop. split; [done|]. intros i. simpl.
  destruct (decide (i ∈ seen)) as [Hi|Hi].
  - destruct (scanLoop_seen_stored _ _ _ _ _ _ _ _ Hloop) with (i := i)
      as [qi Hqi]; [set_solver|done|].
    by rewrite (Get_evict_seen _ _ _ _ Hqi Hi).
  - by rewrite (Get_evict_unseen _ _ _ Hi).
Qed.

(** The loop only adds to what is marked and to what is stored. *)
Lemma scanLoop_mono fuel : ∀ f v (seen : gset N) (pn : queues) seen' pn' ex,
  scanLoop partialEOF fuel f v seen pn = (seen', pn', ex) →
  ∀ i, (i ∈ seen → i ∈ seen') ∧ (is_Some (pn !! i) → is_Some (pn' !! i)).
Proof.
  induction fuel as [|fuel IH]; intros f v seen pn seen' pn' ex; simpl.
  - intros [= <- <- <-]. done.
  - destruct (Fscanf partialEOF f v) as [[v' err] rest].
    assert (∀ i, (i ∈ seen → i ∈ {[id v']} ∪ seen)
                 ∧ (is_Some (pn !! i) →
                    is_Some (<[id v':=queueOf v']> pn !! i))) as Hone.
    { intros i. split; [intros Hi; apply elem_of_union; by right|]. intros Hi.
      destruct (decide (i = id v')) as [Heq|Hne].
      - rewrite Heq, lookup_insert_eq. eauto.
      - by rewrite lookup_insert_ne. }
    destruct err as [e|].
    + destruct e; intros [= <- <- <-]; apply Hone.
    + intros Hloop i. destruct (IH _ _ _ _ _ _ _ Hloop i) as [H1 H2].
      destruct (Hone i) as [H3 H4]. split; auto.
Qed.

(** Every pass marks and stores the values its variables hold after the
    read, whatever the read returned. *)
Lemma scanLoop_stores_first fuel f v (seen : gset N) (pn : queues) :
  let v' := (Fscanf partialEOF f v).1.1 in
  let r := scanLoop partialEOF (S fuel) f v seen pn in
  id v' ∈ r.1.1 ∧ is_Some (r.1.2 !! id v').
Proof.
  simpl. destruct (Fscanf partialEOF f v) as [[v' err] rest]. simpl.
  assert (id v' ∈ {[id v']} ∪ seen
          ∧ is_Some (<[id v':=queueOf v']> pn !! id v')) as [Hin Hst].
  { split; [apply elem_of_union; left; by apply elem_of_singleton|].
    rewrite lookup_insert_eq. eauto. }
  destruct err as [e|].
  - by destruct e.
  - destruct (scanLoop partialEOF fuel rest v' _ _) as [[seen' pn'] ex] eqn:Hloop.
    destruct (scanLoop_mono _ _ _ _ _ _ _ _ Hloop (id v')) as [H1 H2].
    simpl. split; auto.
Qed.

(** At the end of the file the call stores nothing and reports [io.EOF]. *)
Lemma Fscanf_at_end v : Fscanf partialEOF "" v = (v, Some EOF, "").
Proof. reflexivity. Qed.

(** The pass that meets the end of the file marks and stores the values the
    variables still hold. *)
Lemma scanLoop_at_end fuel v seen pn :
  scanLoop partialEOF (S fuel) "" v seen pn
  = ({[ id v ]} ∪ seen, <[ id v := queueOf v ]> pn, Break).
Proof. reflexivity. Qed.

Lemma Update_empty pn :
  Update partialEOF (inl "") pn
  = (evict ({[ 0%N ]} ∪ ∅) (<[ 0%N := zeroQueue ]> pn), None).
Proof. reflexivity. Qed.

Lemma Fscanf_theLine :
  Fscanf partialEOF theLine zeroVars
  = (mkVars 1 0 0 2 65531 0 0 1 1, None, "").
Proof. reflexivity. Qed.

Lemma Fscanf_theLine_nl :
  Fscanf partialEOF (theLine +:+ String nl "") zeroVars
  = (mkVars 1 0 0 2 65531 0 0 1 1, None, "").
Proof. reflexivity. Qed.

Lemma Update_theLine_gen f pn :
  Fscanf partialEOF f zeroVars = (mkVars 1 0 0 2 65531 0 0 1 1, None, "") →
  Update partialEOF (inl f) pn
  = (evict ({[ 1%N ]} ∪ ({[ 1%N ]} ∪ ∅))
       (<[ 1%N := theRecord ]> (<[ 1%N := theRecord ]> pn)), None).
Proof.
  intros Hf. unfold Update.
  pose proof (Fscanf_consumes _ _ _ _ Hf) as Hlen.
  destruct (String.length f) as [|n]; [simpl in Hlen; lia|].
  simpl scanLoop. rewrite Hf. reflexivity.
Qed.

(** C4: a refresh over the single line ["1 0 0 2 65531 0 0 1 1"], with or
    without its closing newline and from any earlier snapshot, succeeds, and
    [Get 1] then finds the record id=1, portID=0, waiting=0, copyMode=2,
    copyRange=65531, queueDropped=0, userDropped=0, lastSeq=1, flag=1. *)
Theorem Update_single_line (pn : queues) :
  let r := mkQueue 1 0 0 2 65531 0 0 1 1 in
  let upd := Update partialEOF (inl "1 0 0 2 65531 0 0 1 1") pn in
  let upd' := Update partialEOF (inl ("1 0 0 2 65531 0 0 1 1" +:+ String nl "")) pn in
  upd.2 = None ∧ Get upd.1 1 = (r, true) ∧
  upd'.2 = None ∧ Get upd'.1 1 = (r, true).
Proof.
  intros r upd upd'. subst upd upd'.
  pose proof (Update_theLine_gen _ pn Fscanf_theLine) as H1.
  pose proof (Update_theLine_gen _ pn Fscanf_theLine_nl) as H2.
  unfold theLine in H1, H2. rewrite H1, H2. simpl.
  assert (Get (evict ({[1%N]} ∪ ({[1%N]} ∪ ∅))
                 (<[1%N:=theRecord]> (<[1%N:=theRecord]> pn))) 1 = (r, true)) as H.
  { apply Get_evict_seen; [apply lookup_insert_eq | set_solver]. }
  by rewrite H.
Qed.

(** C9: a refresh over a file without a single record succeeds and leaves
    the record of id 0 with every field zero in the snapshot, so [Get 0]
    finds it; in general the pass that meets the end of the file marks as
    seen and stores the values its variables hold from the last line read,
    and every pass marks and stores the values of its variables before the
    error of the read is looked at. *)
Theorem Update_empty_file (pn : queues) :
  (Update partialEOF (inl "") pn).2 = None
  ∧ Get (Update partialEOF (inl "") pn).1 0 = (zeroQueue, true)
  ∧ (ReadProcNetfilter partialEOF (inl "")).1 = Some {[ 0%N := zeroQueue ]}
  ∧ (∀ fuel v seen (pn' : queues),
       scanLoop partialEOF (S fuel) "" v seen pn'
       = ({[ id v ]} ∪ seen, <[ id v := queueOf v ]> pn', Break))
  ∧ (∀ fuel f v seen (pn' : queues),
       let v' := (Fscanf partialEOF f v).1.1 in
       let r := scanLoop partialEOF (S fuel) f v seen pn' in
       id v' ∈ r.1.1 ∧ is_Some (r.1.2 !! id v')).
Proof.
  rewrite Update_empty. split; [done|]. split; [|split; [|split]].
  - apply Get_evict_seen; [apply lookup_insert_eq | set_solver].
  - vm_compute. reflexivity.
  - intros. apply scanLoop_at_end.
  - intros. apply scanLoop_stores_first.
Qed.

(** C3, at the input on which the code departs from it: the first refresh
    reads a line of id 0, the second an empty file that holds no record at
    all; both succeed, and [Get 0] still finds a record. *)
Theorem Update_keeps_id_0 :
  let first := Update partialEOF (inl ("0 0 0 2 65531 0 0 1 1" +:+ String nl "")) ∅ in
  let second := Update partialEOF (inl "") first.1 in
  first.2 = None ∧ Get first.1 0 = (mkQueue 0 0 0 2 65531 0 0 1 1, true)
  ∧ second.2 = None ∧ Get second.1 0 = (zeroQueue, true).
Proof. vm_compute. done. Qed.

(** A malformed record: the error is returned, and the snapshot keeps what
    the pass had stored before. *)
Example Update_malformed_record :
  Update partialEOF (inl "5 x") ∅
  = ({[ 5%N := mkQueue 5 0 0 0 0 0 0 0 0 ]}, Some (ErrScan "expected integer")).
Proof. vm_compute. reflexivity. Qed.

(** **** Reading back what the kernel writes *)

Lemma append_cons x (a b : string) : String x a +:+ b = String x (a +:+ b).
Proof. reflexivity. Qed.

Lemma append_assoc (a b c : string) : (a +:+ b) +:+ c = a +:+ (b +:+ c).
Proof. induction a as [|x a IH]; [done|]. by rewrite !append_cons, IH. Qed.

Lemma length_append (a b : string) :
  String.length (a +:+ b) = (String.length a + String.length b)%nat.
Proof. induction a as [|x a IH]; [done|]. rewrite append_cons. simpl. by rewrite IH. Qed.

Lemma SkipSpace_spaces k s : SkipSpace (spaces k +:+ s) = SkipSpace s.
Proof. induction k as [|k IH]; [done|]. simpl spaces. rewrite append_cons. exact IH. Qed.

Lemma skipBlanks_spaces k s : skipBlanks (spaces k +:+ s) = skipBlanks s.
Proof. induction k as [|k IH]; [done|]. simpl spaces. rewrite append_cons. exact IH. Qed.

Lemma digit_not_space c : isDigit c = true → isSpace c = false ∧ isNewline c = false.
Proof.
  destruct c as [[] [] [] [] [] [] [] []]; vm_compute; intros H; try discriminate H.
  all: by split.
Qed.

Lemma acceptDigits_stop s acc : noDigitAhead s → acceptDigits s acc = (acc, s).
Proof. destruct s as [|c s]; simpl; intros H; [done|by rewrite H]. Qed.

Lemma acceptDigits_cons c s acc :
  isDigit c = true →
  acceptDigits (String c s) acc = acceptDigits s (10 * acc + digitVal c)%N.
Proof. intros H. simpl. by rewrite H. Qed.

Lemma acceptDigits_uint_acc d rest : noDigitAhead rest → ∀ p,
  acceptDigits (NilEmpty.string_of_uint d +:+ rest) (N.pos p)
  = (N.pos (Pos.of_uint_acc d p), rest).
Proof.
  intros Hr. induction d as [|d IH|d IH|d IH|d IH|d IH|d IH|d IH|d IH|d IH|d IH];
    intros p; [by apply acceptDigits_stop|..].
  all: cbn [NilEmpty.string_of_uint Pos.of_uint_acc]; rewrite append_cons.
  all: rewrite acceptDigits_cons by reflexivity.
  all: rewrite <- IH; f_equal; vm_compute digitVal; lia.
Qed.

Lemma acceptDigits_uint d rest : noDigitAhead rest →
  acceptDigits (NilEmpty.string_of_uint d +:+ rest) 0 = (Pos.of_uint d, rest).
Proof.
  intros Hr. induction d as [|d IH|d IH|d IH|d IH|d IH|d IH|d IH|d IH|d IH|d IH];
    [by apply acceptDigits_stop|..].
  all: cbn [NilEmpty.string_of_uint Pos.of_uint]; rewrite append_cons.
  all: rewrite acceptDigits_cons by reflexivity.
  all: first [exact IH | exact (acceptDigits_uint_acc d rest Hr _)].
Qed.

Lemma decimal_head n : ∃ c s, decimal n = String c s ∧ isDigit c = true.
Proof.
  unfold decimal. destruct (N.to_uint n); simpl; by do 2 eexists.
Qed.

Lemma acceptDigits_decimal n rest : noDigitAhead rest →
  acceptDigits (decimal n +:+ rest) 0 = (n, rest).
Proof.
  intros Hr. rewrite <- (DecimalN.Unsigned.of_to n) at 2.
  unfold decimal, N.of_uint. destruct (N.to_uint n) as [|d|d|d|d|d|d|d|d|d|d] eqn:E.
  { simpl. by rewrite Hr || (destruct rest; [done|simpl in *; by rewrite Hr]). }
  all: by apply (acceptDigits_uint _ rest Hr).
Qed.

Lemma scanUint_field k n rest :
  (n < maxUint)%N → noDigitAhead rest →
  scanUint (spaces k +:+ decimal n +:+ rest) = inl (n, rest).
Proof.
  intros Hn Hr. unfold scanUint. rewrite SkipSpace_spaces.
  pose proof (acceptDigits_decimal n rest Hr) as Hacc.
  destruct (decimal_head n) as (c & s & Hd & Hc). rewrite Hd in *.
  destruct (digit_not_space c Hc) as [Hsp Hnl].
  rewrite append_cons in *. cbn [SkipSpace]. rewrite Hnl, Hsp, Hc.
  rewrite acceptDigits_cons in Hacc by done.
  change (10 * 0 + digitVal c)%N with (digitVal c) in Hacc.
  rewrite Hacc. by apply N.ltb_lt in Hn as ->.
Qed.

Lemma noDigitAhead_renderFields width k ns tail :
  noDigitAhead tail → noDigitAhead (renderFields width (S k) ns +:+ tail).
Proof. destruct ns; simpl; done. Qed.

Lemma scanFields_render width ns : ∀ k m v tail,
  Forall (λ n, (n < maxUint)%N) ns → noDigitAhead tail →
  scanFields partialEOF k (length ns + m) (renderFields width k ns +:+ tail) v
  = scanFields partialEOF (k + length ns) m tail (assignAll k ns v).
Proof.
  induction ns as [|n ns IH]; intros k m v tail Hns Htail.
  - simpl. by rewrite Nat.add_0_r.
  - apply Forall_cons in Hns as [Hn Hns].
    pose proof (noDigitAhead_renderFields width k ns tail Htail) as Hrest.
    cbn [renderFields length Nat.add scanFields]. unfold padLeft.
    rewrite !append_assoc.
    assert (scanUint (spaces (width k - String.length (decimal n)) +:+ decimal n
                      +:+ renderFields width (S k) ns +:+ tail)
            = inl (n, renderFields width (S k) ns +:+ tail)) as Hscan
      by (by apply scanUint_field).
    destruct (k =? 0)%nat eqn:Hk.
    + change ("" +:+ ?x) with x. rewrite Hscan. cbn [assignAll].
      rewrite IH by done. f_equal. lia.
    + rewrite append_cons. change ("" +:+ ?x) with x. cbn [advanceSpace].
      change (isSpace " ") with true.
      change (isNewline " ") with false. cbn [negb].
      rewrite skipBlanks_spaces.
      destruct (decimal_head n) as (c & s & Hd & Hc).
      destruct (digit_not_space c Hc) as [Hsp Hnl].
      assert (skipBlanks (decimal n +:+ renderFields width (S k) ns +:+ tail)
              = decimal n +:+ renderFields width (S k) ns +:+ tail) as ->.
      { rewrite Hd, append_cons. cbn [skipBlanks]. by rewrite Hsp. }
      pose proof (scanUint_field 0 n _ Hn Hrest) as H0.
      change (spaces 0 +:+ ?x) with x in H0. rewrite H0. cbn [assignAll].
      rewrite IH by done. f_equal. lia.
Qed.

Lemma queueOf_varsOf r : queueOf (varsOf r) = r.
Proof. by destruct r. Qed.

(** One call reads one line of the file, whatever the variables held. *)
Lemma Fscanf_line width r v rest :
  validQueue r →
  Fscanf partialEOF (renderLine width r +:+ rest) v = (varsOf r, None, rest).
Proof.
  intros Hr. unfold Fscanf, renderLine. rewrite append_assoc.
  change 9%nat with (length (fieldsOf r) + 0)%nat.
  rewrite scanFields_render; [|done|done]. reflexivity.
Qed.

(** A line that stops short of its nine columns is an error of the call. *)
Lemma Fscanf_short_line width ns v rest :
  Forall (λ n, (n < maxUint)%N) ns → (0 < length ns < 9)%nat →
  Fscanf partialEOF (renderFields width 0 ns +:+ String nl rest) v
  = (assignAll 0 ns v,
     Some (ErrScan "newline in input does not match format"), "").
Proof.
  intros Hns [Hlo Hhi]. unfold Fscanf.
  replace 9%nat with (length ns + S (8 - length ns))%nat by lia.
  rewrite scanFields_render; [|done|done].
  destruct (length ns) as [|k]; [lia|]. reflexivity.
Qed.

Lemma scanLoop_file width recs : ∀ fuel tail v seen (pn : queues),
  Forall validQueue recs →
  scanLoop partialEOF (length recs + fuel) (renderFile width recs +:+ tail) v seen pn
  = scanLoop partialEOF fuel tail (lastVars recs v) (seenAll recs seen)
      (storeAll recs pn).
Proof.
  induction recs as [|r recs IH]; intros fuel tail v seen pn Hrecs; [done|].
  apply Forall_cons in Hrecs as [Hr Hrecs].
  cbn [renderFile length Nat.add scanLoop]. rewrite append_assoc.
  rewrite (Fscanf_line width r v _ Hr). cbn [id varsOf].
  rewrite queueOf_varsOf. by rewrite IH.
Qed.

Lemma renderFile_length width recs tail :
  (length recs <= String.length (renderFile width recs +:+ tail))%nat.
Proof.
  induction recs as [|r recs IH]; [simpl; lia|].
  cbn [renderFile length]. unfold renderLine.
  rewrite !append_assoc, !length_append in *.
  change (String.length (String nl "")) with 1%nat. lia.
Qed.

Lemma append_nil_r (a : string) : a +:+ "" = a.
Proof. induction a as [|x a IH]; [done|]. by rewrite append_cons, IH. Qed.

Lemma elem_of_seenAll recs : ∀ (seen : gset N) i,
  i ∈ seenAll recs seen ↔ i ∈ seen ∨ i ∈ (ID <$> recs).
Proof.
  induction recs as [|r recs IH]; intros seen i; simpl.
  - split; [by left|]. intros [H|H]; [done|]. by apply not_elem_of_nil in H.
  - unfold seenAll in *. simpl. rewrite IH, elem_of_union, elem_of_singleton.
    rewrite elem_of_cons. tauto.
Qed.

Lemma storeAll_lookup_notin recs : ∀ (m : queues) i,
  i ∉ (ID <$> recs) → storeAll recs m !! i = m !! i.
Proof.
  induction recs as [|r recs IH]; intros m i Hi; [done|].
  simpl in Hi. apply not_elem_of_cons in Hi as [Hne Hi].
  unfold storeAll in *. simpl. rewrite IH by done. by rewrite lookup_insert_ne.
Qed.

Lemma storeAll_lookup_in recs : ∀ (m m' : queues) i,
  i ∈ (ID <$> recs) → storeAll recs m !! i = storeAll recs m' !! i.
Proof.
  induction recs as [|r recs IH]; intros m m' i Hi.
  - by apply not_elem_of_nil in Hi.
  - destruct (decide (i ∈ (ID <$> recs))) as [Hin|Hnot].
    + unfold storeAll in *. simpl. by apply IH.
    + simpl in Hi. apply elem_of_cons in Hi as [->|Hi]; [|done].
      change (storeAll (r :: recs) m) with (storeAll recs (<[ID r:=r]> m)).
      change (storeAll (r :: recs) m') with (storeAll recs (<[ID r:=r]> m')).
      rewrite !storeAll_lookup_notin by done. by rewrite !lookup_insert_eq.
Qed.

Lemma storeAll_snoc recs r (m : queues) :
  storeAll (recs ++ [r]) m = <[ID r:=r]> (storeAll recs m).
Proof. unfold storeAll. by rewrite foldl_snoc. Qed.

Lemma lastVars_snoc recs r v : lastVars (recs ++ [r]) v = varsOf r.
Proof. unfold lastVars. by rewrite foldl_snoc. Qed.

Lemma storeAll_lookup_last recs i :
  storeAll recs (∅ : queues) !! i = last (filter (λ r, ID r = i) recs).
Proof.
  induction recs as [|r recs IH] using rev_ind; [done|].
  rewrite storeAll_snoc, filter_app.
  destruct (decide (ID r = i)) as [Heq|Hne].
  - rewrite filter_cons_True by done. rewrite filter_nil, last_snoc.
    by rewrite <- Heq, lookup_insert_eq.
  - rewrite filter_cons_False by done. rewrite filter_nil, app_nil_r.
    by rewrite lookup_insert_ne.
Qed.

Lemma evict_lookup_seen (seen : gset N) (m : queues) i :
  i ∈ seen → evict seen m !! i = m !! i.
Proof.
  intros Hi. unfold evict. destruct (m !! i) as [x|] eqn:Hx.
  - by apply map_lookup_filter_Some_2.
  - apply map_lookup_filter_None. by left.
Qed.

Lemma evict_lookup_unseen (seen : gset N) (m : queues) i :
  i ∉ seen → evict seen m !! i = None.
Proof.
  intros Hi. unfold evict. apply map_lookup_filter_None. right. by intros x _.
Qed.

(** The scan loop over a file of whole lines, up to its last pass. *)
Lemma scanLoop_whole_file width recs (pn : queues) :
  Forall validQueue recs →
  scanLoop partialEOF (S (String.length (renderFile width recs)))
    (renderFile width recs) zeroVars ∅ pn
  = ({[ id (lastVars recs zeroVars) ]} ∪ seenAll recs ∅,
     <[ id (lastVars recs zeroVars) := queueOf (lastVars recs zeroVars) ]>
       (storeAll recs pn),
     Break).
Proof.
  intros Hrecs. pose proof (renderFile_length width recs "") as Hlen.
  rewrite append_nil_r in Hlen.
  replace (S (String.length (renderFile width recs)))
    with (length recs + S (String.length (renderFile width recs) - length recs))%nat
    by lia.
  rewrite <- (append_nil_r (renderFile width recs)) at 2.
  by rewrite scanLoop_file.
Qed.

(** What the eviction loop leaves after the scan of a file of whole lines:
    the pass that meets the end of the file stores the last record again. *)
Lemma evict_after_file recs (pn : queues) :
  recs ≠ [] →
  evict ({[id (lastVars recs zeroVars)]} ∪ seenAll recs ∅)
    (<[id (lastVars recs zeroVars):=queueOf (lastVars recs zeroVars)]>
       (storeAll recs pn))
  = storeAll recs ∅.
Proof.
  intros Hne. destruct (exists_last Hne) as (recs' & r & ->).
  rewrite lastVars_snoc, queueOf_varsOf. cbn [id varsOf].
  rewrite !storeAll_snoc, insert_insert_eq, <- !storeAll_snoc.
  apply map_eq. intros i.
  destruct (decide (i ∈ (ID <$> (recs' ++ [r])))) as [Hin|Hnot].
  - rewrite evict_lookup_seen.
    + by apply storeAll_lookup_in.
    + apply elem_of_union. right. apply elem_of_seenAll. by right.
  - rewrite evict_lookup_unseen.
    + by rewrite storeAll_lookup_notin.
    + intros Hi. apply elem_of_union in Hi as [Hi|Hi].
      * apply elem_of_singleton in Hi. subst i. apply Hnot.
        rewrite fmap_app. apply elem_of_app. right. simpl. by left.
      * apply elem_of_seenAll in Hi as [Hi|Hi]; [|done].
        by apply not_elem_of_empty in Hi.
Qed.

(** X1: a refresh over a file of whole lines, written as the kernel writes
    them with any column widths, replaces the snapshot by the records of the
    file, a later line winning over an earlier one of the same id, whatever
    the snapshot held before. *)
Theorem Update_reads_back width recs (pn : queues) :
  recs ≠ [] → Forall validQueue recs →
  Update partialEOF (inl (renderFile width recs)) pn = (storeAll recs ∅, None).
Proof.
  intros Hne Hrecs. unfold Update. rewrite scanLoop_whole_file by done.
  by rewrite evict_after_file.
Qed.

(** X2: after such a refresh [Get] returns, for an id, the last line of
    the file with that id, and not-found for an id that no line of the file
    has: whatever else the snapshot held is evicted. *)
Theorem Get_after_refresh width recs (pn : queues) i :
  recs ≠ [] → Forall validQueue recs →
  Get (Update partialEOF (inl (renderFile width recs)) pn).1 i
  = match last (filter (λ r, ID r = i) recs) with
    | Some r => (r, true)
    | None => (zeroQueue, false)
    end.
Proof.
  intros Hne Hrecs. unfold Update. rewrite scanLoop_whole_file by done.
  cbn [fst]. rewrite evict_after_file by done. unfold Get.
  by rewrite storeAll_lookup_last.
Qed.

(** X3: a line that ends before its ninth column makes the refresh fail
    with the scanner's error.  The snapshot is then left as the loop had it:
    nothing evicted, the whole lines before stored, and one more record
    stored from the variables that the short line has partly overwritten. *)
Theorem Update_short_line width recs ns rest (pn : queues) :
  Forall validQueue recs → Forall (λ n, (n < maxUint)%N) ns →
  (0 < length ns < 9)%nat →
  let v := assignAll 0 ns (lastVars recs zeroVars) in
  Update partialEOF
    (inl (renderFile width recs +:+ renderFields width 0 ns +:+ String nl rest)) pn
  = (<[ id v := queueOf v ]> (storeAll recs pn),
     Some (ErrScan "newline in input does not match format")).
Proof.
  intros Hrecs Hns Hlen v. unfold Update.
  set (tail := renderFields width 0 ns +:+ String nl rest).
  pose proof (renderFile_length width recs tail) as Hfile.
  replace (S (String.length (renderFile width recs +:+ tail)))
    with (length recs
          + S (String.length (renderFile width recs +:+ tail) - length recs))%nat
    by lia.
  rewrite scanLoop_file by done. cbn [scanLoop]. unfold tail.
  by rewrite Fscanf_short_line.
Qed.

(** X4: a refresh that succeeds never leaves the snapshot empty, whatever
    the file holds. *)
Theorem Update_success_nonempty f (pn pn' : queues) :
  Update partialEOF (inl f) pn = (pn', None) → pn' ≠ ∅.
Proof.
  unfold Update.
  pose proof (scanLoop_stores_first (String.length f) f zeroVars ∅ pn) as Hst.
  cbv zeta in Hst.
  destruct (scanLoop partialEOF (S (String.length f)) f zeroVars ∅ pn)
    as [[seen pn1] ex].
  destruct ex; intros [= <-]. cbn [fst snd] in Hst. destruct Hst as [Hin [x Hx]].
  intros Hempty.
  pose proof (evict_lookup_seen seen pn1 _ Hin) as Hl.
  rewrite Hempty, Hx in Hl. by rewrite lookup_empty in Hl.
Qed.

(** X5: a refresh that returns an error, be it that the file cannot be
    opened or that a line cannot be scanned, evicts nothing: every id that
    [Get] found before it still finds. *)
Theorem Update_error_keeps_ids file (pn pn' : queues) e i :
  Update partialEOF file pn = (pn', Some e) →
  (Get pn i).2 = true → (Get pn' i).2 = true.
Proof.
  assert (∀ m : queues, (Get m i).2 = true ↔ is_Some (m !! i)) as HGet.
  { intros m. unfold Get. destruct (m !! i) as [x|]; simpl; split; intros H;
      try done; eauto; by destruct H. }
  rewrite !HGet. unfold Update. destruct file as [f|msg]; [|by intros [= <- _]].
  destruct (scanLoop partialEOF (S (String.length f)) f zeroVars ∅ pn)
    as [[seen pn1] ex] eqn:Hloop.
  pose proof (scanLoop_mono _ _ _ _ _ _ _ _ Hloop i) as [_ Hmono].
  destruct ex; intros Heq; simplify_eq; done.
Qed.

(** X6: every call of the scanner that succeeds takes at least nine bytes
    off the file, so that the loop of a refresh always ends by its break or
    by a return before as many passes as the file has bytes, plus one. *)
Theorem Update_loop_ends f v (seen : gset N) (pn : queues) :
  (∀ v' rest, Fscanf partialEOF f v = (v', None, rest) →
              (String.length rest + 9 <= String.length f)%nat)
  ∧ (scanLoop partialEOF (S (String.length f)) f v seen pn).2 ≠ OutOfFuel.
Proof.
  split.
  - intros v' rest H. by apply scanFields_length in H.
  - apply Update_fuel.
Qed.

Lemma Get_Some (pn : queues) i r : Get pn i = (r, true) ↔ pn !! i = Some r.
Proof.
  unfold Get. destruct (pn !! i) as [r'|]; split; intros H; by simplify_eq.
Qed.

Lemma keyedByID_insert v (pn : queues) :
  keyedByID pn → keyedByID (<[ id v := queueOf v ]> pn).
Proof.
  intros Hpn i r Hr. apply Get_Some in Hr.
  destruct (decide (i = id v)) as [->|Hne].
  - rewrite lookup_insert_eq in Hr. by simplify_eq.
  - rewrite lookup_insert_ne in Hr by done. by apply Hpn, Get_Some.
Qed.

Lemma keyedByID_evict (seen : gset N) (pn : queues) :
  keyedByID pn → keyedByID (evict seen pn).
Proof.
  intros Hpn i r Hr. apply Get_Some in Hr. unfold evict in Hr.
  apply map_lookup_filter_Some in Hr as [Hr _]. by apply Hpn, Get_Some.
Qed.

Lemma scanLoop_keyedByID fuel : ∀ f v (seen : gset N) (pn : queues),
  keyedByID pn → keyedByID (scanLoop partialEOF fuel f v seen pn).1.2.
Proof.
  induction fuel as [|fuel IH]; intros f v seen pn Hpn; simpl; [done|].
  destruct (Fscanf partialEOF f v) as [[v' err] rest].
  pose proof (keyedByID_insert v' pn Hpn) as Hins.
  destruct err as [e|]; [by destruct e|]. by apply IH.
Qed.

Lemma keyedByID_empty : keyedByID ∅.
Proof. intros i r Hr. apply Get_Some in Hr. by rewrite lookup_empty in Hr. Qed.

(** X16: a refresh, whether it succeeds or fails and whatever the file
    holds, keeps the snapshot keyed by id: when every record that [Get]
    found was the record of the id asked for, it is so afterwards. *)
Theorem Update_keeps_keys file (pn : queues) :
  keyedByID pn → keyedByID (Update partialEOF file pn).1.
Proof.
  intros Hpn. destruct file as [f|msg]; [|done]. unfold Update.
  pose proof (scanLoop_keyedByID (S (String.length f)) f zeroVars ∅ pn Hpn) as H.
  destruct (scanLoop partialEOF (S (String.length f)) f zeroVars ∅ pn)
    as [[seen pn'] ex].
  destruct ex; [by apply keyedByID_evict|done..].
Qed.

(** X17: [ReadProcNetfilter] returns a snapshot or an error, never both
    and never neither.  The snapshot is the one a refresh of an empty
    snapshot leaves, and it is keyed by id.  The error is
    the error of that refresh, and what the refresh had stored by then is
    not returned. *)
Theorem ReadProcNetfilter_spec file :
  match ReadProcNetfilter partialEOF file with
  | (Some pn, None) =>
      Update partialEOF file ∅ = (pn, None) ∧ keyedByID pn
  | (None, Some e) => (Update partialEOF file ∅).2 = Some e
  | _ => False
  end.
Proof.
  unfold ReadProcNetfilter. destruct file as [f|msg]; [|done]. unfold Update.
  pose proof (scanLoop_keyedByID (S (String.length f)) f zeroVars ∅ ∅
                keyedByID_empty) as H.
  destruct (scanLoop partialEOF (S (String.length f)) f zeroVars ∅ ∅)
    as [[seen pn'] ex].
  destruct ex; [|done..]. split; [done|]. by apply keyedByID_evict.
Qed.

End ProcNetfilterFacts.

(** * Properties of the drain controller *)

Section NetfilterQueueFacts.

Import NetfilterQueue.

Variable q : NetfilterQueue.

(** **** Runs *)

Lemma run_app ls1 ls2 s :
  run q (ls1 ++ ls2) s = run q ls1 s ≫= run q ls2.
Proof.
  revert s; induction ls1 as [|l ls1 IH]; intros s; simpl; [done|].
  destruct (step q l s); simpl; [apply IH|done].
Qed.

Lemma run_app_Some ls1 ls2 s s1 :
  run q ls1 s = Some s1 → run q (ls1 ++ ls2) s = run q ls2 s1.
Proof. intros H. by rewrite run_app, H. Qed.

Lemma run_reachable ls s s' :
  reachable q s → run q ls s = Some s' → reachable q s'.
Proof.
  revert s; induction ls as [|l ls IH]; intros s Hs; simpl.
  - by intros [= <-].
  - destruct (step q l s) as [s1|] eqn:Hstep; [|done].
    apply IH. by eapply reachable_step.
Qed.

(** **** Taking a step apart *)

Ltac inv_step H :=
  unfold step in H;
  match type of H with
  | context [aborted ?s] => destruct (aborted s) eqn:?; [discriminate|]
  end;
  match type of H with
  | match ?l with _ => _ end = _ => destruct l
  end;
  unfold loopStep, packetArrives, packetTimeout, packetStep,
    CaptureSend, CaptureRecv, Release in H;
  repeat match type of H with
  | context [match ?x with _ => _ end] => destruct x eqn:?; try discriminate
  | context [if ?x then _ else _] => destruct x eqn:?; try discriminate
  end;
  injection H as <-.

Lemma sessionTrace_log evs s :
  sessionTrace (log evs s) = sessionTrace s ++ List.filter isSessionEvent evs.
Proof. unfold sessionTrace. simpl. apply List.filter_app. Qed.

Lemma iptablesIter_session f ip r evs p :
  iptablesIter q f ip r = (evs, p) → List.filter isSessionEvent evs = evs.
Proof.
  unfold iptablesIter. destruct (To4 ip); intros [= <- _]; reflexivity.
Qed.

Lemma iptablesIter_no_panic f ip r evs :
  iptablesIter q f ip r = (evs, None) → evs = (iptablesIter q f ip None).1.
Proof.
  unfold iptablesIter. destruct (To4 ip); simpl; [|congruence].
  destruct r; congruence.
Qed.

Lemma iptablesEvents_app f l1 l2 :
  iptablesEvents q f (l1 ++ l2) = iptablesEvents q f l1 ++ iptablesEvents q f l2.
Proof. unfold iptablesEvents. apply flat_map_app. Qed.

Lemma iptablesEvents_take_S f i ip :
  IPs q !! i = Some ip →
  iptablesEvents q f (take (S i) (IPs q))
  = iptablesEvents q f (take i (IPs q)) ++ (iptablesIter q f ip None).1.
Proof.
  intros Hi. rewrite (take_S_r _ _ _ Hi), iptablesEvents_app.
  unfold iptablesEvents at 3. simpl. by rewrite app_nil_r.
Qed.

(** **** The shape of the session trace *)

Ltac st_simpl :=
  cbn [trace lpc panicking aborted capture capturing release accepting ppc
       count inCapture goto log setCapture setCapturing setRelease
       setAccepting setPanicking setAborted setPpc setCount setInCapture
       abort panicInBody signal] in *.

Lemma suffix_snoc_eq (A tr e B : list event) :
  A `suffix_of` tr → B = A ++ e → B `suffix_of` tr ++ e.
Proof. intros H ->. by apply suffix_app. Qed.

Lemma shape_step s l s' : shape q s → step q l s = Some s' → shape q s'.
Proof.
  intros Hs Hstep. inv_step Hstep.
  all: unfold shape, sessionTrace in *; st_simpl; intros Hp Ha; try done.
  all: specialize (Hs Hp Ha).
  all: repeat match goal with H : lpc _ = _ |- _ => rewrite H in *; clear H end.
  all: rewrite ?List.filter_app; cbn [List.filter isSessionEvent]; rewrite ?app_nil_r.
  all: try done.
  all: unfold shapeAt in *.
  - by left.
  - apply suffix_app_r. done.
  - eapply suffix_snoc_eq; [exact Hs|]. unfold passEvents. rewrite take_0. reflexivity.
  - match goal with H : iptablesIter _ _ _ _ = _ |- _ =>
      rewrite (iptablesIter_session _ _ _ _ _ H);
      apply iptablesIter_no_panic in H; subst end.
    eapply suffix_snoc_eq; [exact Hs|].
    unfold passEvents. destruct f.
    all: erewrite iptablesEvents_take_S by eassumption.
    all: by rewrite <- ?app_assoc.
  - match goal with H : _ !! _ = None |- _ => apply lookup_ge_None_1 in H end.
    unfold passEvents in *. by rewrite take_ge in Hs.
  - match goal with H : _ !! _ = None |- _ => apply lookup_ge_None_1 in H end.
    unfold passEvents in *. by rewrite take_ge in Hs.
  - eapply suffix_snoc_eq; [exact Hs|]. reflexivity.
  - eapply suffix_snoc_eq; [exact Hs|]. unfold passEvents. rewrite take_0.
    unfold iptablesEvents at 2. simpl. by rewrite <- ?app_assoc.
  - eapply suffix_snoc_eq; [exact Hs|]. unfold passEvents. by rewrite <- ?app_assoc.
  - right. eapply suffix_snoc_eq; [exact Hs|].
    unfold passEvents, sessionEvents. by rewrite <- ?app_assoc.
Qed.

Lemma shape_reachable s : reachable q s → shape q s.
Proof.
  induction 1 as [|s l s' _ IH Hstep]; [|by eapply shape_step].
  intros _ _. reflexivity.
Qed.

(** **** Simple facts about the program points *)

Lemma step_alive s l s' : step q l s = Some s' → aborted s = None.
Proof. unfold step. by destruct (aborted s). Qed.

(** A panic is in flight only while the deferred removal runs. *)
Lemma panicking_pc s :
  reachable q s → panicking s ≠ None →
  ∃ i, lpc s = LIptables iptablesDeleteFlag i.
Proof.
  induction 1 as [|s l s' _ IH Hstep]; [done|].
  inv_step Hstep; st_simpl; intros Hp; eauto; try congruence.
  all: destruct (IH Hp) as [j Hj]; simplify_eq; eauto.
Qed.

(** From the closing of the gate to its opening, [accepting] is false. *)
Lemma gate_closed_in_session s :
  reachable q s → inSession (lpc s) = true → accepting s = false.
Proof.
  induction 1 as [|s l s' _ IH Hstep]; [done|].
  inv_step Hstep; st_simpl; intros Hpc; try done.
  all: repeat match goal with H : lpc _ = _ |- _ => rewrite H in *; clear H end.
  all: try (by apply IH).
  by specialize (IH Hpc).
Qed.

(** **** What a step adds to the session trace *)

Lemma step_sessionTrace s l s' :
  step q l s = Some s' →
  sessionTrace s' = sessionTrace s
  ∨ ∃ e, sessionTrace s' = sessionTrace s ++ [e] ∧ emits q (lpc s) e.
Proof.
  intros Hstep. inv_step Hstep.
  all: unfold sessionTrace; st_simpl.
  all: repeat match goal with H : lpc _ = _ |- _ => rewrite H in *; clear H end.
  all: rewrite ?List.filter_app; cbn [List.filter isSessionEvent]; rewrite ?app_nil_r.
  all: try (by left).
  all: try (by right; eexists; split; [reflexivity|]).
  all: match goal with H : iptablesIter _ _ ?ip ?r = _ |- _ =>
         pose proof H as Hiter; unfold iptablesIter in H;
         destruct (To4 ip) eqn:?; simplify_eq end.
  all: simpl; rewrite ?app_nil_r.
  all: right; eexists; split; [reflexivity|].
  all: do 2 eexists; split; [eassumption|]; by rewrite Hiter.
Qed.

Lemma precededBy_nil X P : precededBy X P [].
Proof. intros pre x post H. by destruct pre. Qed.

Lemma precededBy_snoc X (P : list event → Prop) tr e :
  precededBy X P tr → (X e → P tr) → precededBy X P (tr ++ [e]).
Proof.
  intros Htr He pre x post Heq Hx.
  destruct (decide (post = [])) as [->|Hne].
  - apply app_inj_tail in Heq as [-> ->]. by apply He.
  - destruct (exists_last Hne) as (post' & e' & ->).
    rewrite app_comm_cons, app_assoc in Heq.
    apply app_inj_tail in Heq as [-> _]. by eapply Htr.
Qed.

Lemma precededBy_reachable X (P : list event → Prop) :
  (∀ s e, reachable q s → aborted s = None → emits q (lpc s) e → X e →
          P (sessionTrace s)) →
  ∀ s, reachable q s → precededBy X P (sessionTrace s).
Proof.
  intros HP s Hs. induction Hs as [|s l s' Hs IH Hstep].
  - apply precededBy_nil.
  - destruct (step_sessionTrace _ _ _ Hstep) as [->|(e & -> & He)]; [done|].
    apply precededBy_snoc; [done|]. intros Hx.
    eapply HP; [done| by eapply step_alive |done|done].
Qed.

(** The shape, for program points that a panic in flight never visits. *)
Lemma shape_at s :
  reachable q s → aborted s = None →
  (∀ i, lpc s ≠ LIptables iptablesDeleteFlag i) →
  shapeAt q (lpc s) (sessionTrace s).
Proof.
  intros Hs Ha Hpc. apply shape_reachable; [done| |done].
  destruct (panicking s) eqn:Hp; [|done].
  destruct (panicking_pc s Hs) as [i Hi]; [congruence|]. by destruct (Hpc i).
Qed.

Lemma iptablesArgs_flag f f' ip ip' :
  iptablesArgs q f ip = iptablesArgs q f' ip' → f = f'.
Proof. unfold iptablesArgs. intros [= Hf _]. by destruct f, f'. Qed.

(** An install command runs after the gate was closed for its session, and
    after nothing else than the install commands of the addresses before it. *)
Lemma install_after_gate_close s :
  reachable q s →
  precededBy (isInstall q)
    (λ pre, ∃ i, ([EvRecvCapture; EvAccepting false]
                  ++ iptablesEvents q iptablesAddFlag (take i (IPs q)))
                 `suffix_of` pre)
    (sessionTrace s).
Proof.
  apply precededBy_reachable. clear s. intros s e Hs Ha He (ip4 & r & ->).
  destruct (lpc s) as [| | | | |f i| | | | |] eqn:Hpc; simpl in He; try done.
  destruct He as (ip & r' & Hip & He). unfold iptablesIter in He.
  destruct (To4 ip) as [ip4'|]; simpl in He; [|discriminate].
  assert (iptablesArgs q f ip4' = iptablesArgs q iptablesAddFlag ip4) as Hargs
    by congruence.
  apply iptablesArgs_flag in Hargs. subst f.
  exists i. pose proof (shape_at s Hs Ha) as Hshape. rewrite Hpc in Hshape.
  apply Hshape. congruence.
Qed.

(** The acknowledgement of a capture is sent right after the install
    commands of all the addresses. *)
Lemma ack_after_install s :
  reachable q s →
  precededBy (λ e, e = EvSendCapturing)
    (λ pre, ([EvRecvCapture; EvAccepting false]
             ++ iptablesEvents q iptablesAddFlag (IPs q)) `suffix_of` pre)
    (sessionTrace s).
Proof.
  apply precededBy_reachable. clear s. intros s e Hs Ha He ->.
  destruct (lpc s) eqn:Hpc; simpl in He; try done.
  - destruct He as (ip & r & _ & He). unfold iptablesIter in He.
    destruct (To4 ip); simplify_eq/=.
  - pose proof (shape_at s Hs Ha) as Hshape. rewrite Hpc in Hshape.
    apply Hshape. congruence.
Qed.

(** A pass of the loop starts at the very beginning or right after a whole
    pass. *)
Lemma capture_after_whole_session s :
  reachable q s →
  precededBy (λ e, e = EvRecvCapture)
    (λ pre, pre = [] ∨ sessionEvents q `suffix_of` pre)
    (sessionTrace s).
Proof.
  apply precededBy_reachable. clear s. intros s e Hs Ha He ->.
  destruct (lpc s) eqn:Hpc; simpl in He; try done.
  - pose proof (shape_at s Hs Ha) as Hshape. rewrite Hpc in Hshape.
    apply Hshape. congruence.
  - destruct He as (ip & r & _ & He). unfold iptablesIter in He.
    destruct (To4 ip); simplify_eq/=.
Qed.

(** C1, amended: the gate is closed first.  Every install command runs
    after the transition to accepting = false of its session, with only the
    install commands of the earlier addresses in between and with the gate
    still closed; the acknowledgement that lets [Capture] return is sent
    right after the install commands of all the addresses. *)
Theorem gate_closes_before_install s :
  reachable q s →
  (∀ pre e post, sessionTrace s = pre ++ e :: post → isInstall q e →
     ∃ i, ([EvRecvCapture; EvAccepting false]
           ++ iptablesEvents q iptablesAddFlag (take i (IPs q))) `suffix_of` pre)
  ∧ (∀ pre post, sessionTrace s = pre ++ EvSendCapturing :: post →
     ([EvRecvCapture; EvAccepting false]
      ++ iptablesEvents q iptablesAddFlag (IPs q)) `suffix_of` pre)
  ∧ (∀ f i, lpc s = LIptables f i → accepting s = false).
Proof.
  intros Hs. split; [|split].
  - intros pre e post Heq He. by eapply (install_after_gate_close s Hs).
  - intros pre post Heq. by eapply (ack_after_install s Hs).
  - intros f i Hpc. apply gate_closed_in_session; [done|]. by rewrite Hpc.
Qed.

(** C5: drain sessions are serialized.  The loop takes up a capture request
    either as the first thing it does or right after a whole earlier session,
    whose removal command has run for every address and whose gate has been
    reopened; and an install command only ever follows the start of its own
    session and the install commands of the earlier addresses.  So the
    installation of a second session never begins before the removal of the
    first has completed. *)
Theorem sessions_never_overlap s :
  reachable q s →
  (∀ pre post, sessionTrace s = pre ++ EvRecvCapture :: post →
     pre = [] ∨ sessionEvents q `suffix_of` pre)
  ∧ (∀ pre e post, sessionTrace s = pre ++ e :: post → isInstall q e →
     ∃ i, ([EvRecvCapture; EvAccepting false]
           ++ iptablesEvents q iptablesAddFlag (take i (IPs q))) `suffix_of` pre).
Proof.
  intros Hs. split.
  - intros pre post Heq. by eapply (capture_after_whole_session s Hs).
  - intros pre e post Heq He. by eapply (install_after_gate_close s Hs).
Qed.

(** **** A call of [iptables], step by step *)

Lemma iptablesIter_succeeds f ip :
  iptablesIter q f ip None = ((iptablesIter q f ip None).1, None).
Proof. unfold iptablesIter. by destruct (To4 ip). Qed.

Lemma log_nil s : lpc s = lpc s → log [] s = s.
Proof. intros _. destruct s. unfold log. simpl. by rewrite app_nil_r. Qed.

Lemma goto_same s pc : lpc s = pc → goto pc s = s.
Proof. intros <-. by destruct s. Qed.

Lemma run_iptables f k : ∀ i s,
  aborted s = None → lpc s = LIptables f i → i + k = length (IPs q) →
  run q (repeat (Loop None) k) s
  = Some (goto (LIptables f (length (IPs q)))
            (log (iptablesEvents q f (drop i (IPs q))) s)).
Proof.
  induction k as [|k IH]; intros i s Ha Hpc Hlen.
  - simpl. rewrite drop_ge by lia. unfold iptablesEvents. simpl.
    rewrite log_nil by done. rewrite goto_same; [done|]. rewrite Hpc. f_equal. lia.
  - destruct (lookup_lt_is_Some_2 (IPs q) i) as [ip Hip]; [lia|].
    simpl. unfold step. rewrite Ha. unfold loopStep. rewrite Hpc, Hip.
    rewrite iptablesIter_succeeds.
    rewrite (IH (S i)); [|done|done|lia].
    rewrite (drop_S _ _ _ Hip). unfold iptablesEvents at 2. simpl.
    fold (iptablesEvents q f (drop (S i) (IPs q))).
    f_equal. unfold goto, log. simpl. by rewrite app_assoc.
Qed.

(** An address list of IPv6 addresses only makes the call log one warning
    per address and return. *)
Lemma iptablesOver_only_IPv6 f ips rs :
  Forall (λ ip, To4 ip = None) ips →
  iptablesOver q f ips rs = (EvLogOnlyIPv4 <$> ips, None).
Proof.
  intros H. revert rs. induction H as [|ip ips Hip _ IH]; intros rs; [done|].
  simpl. unfold iptablesIter. rewrite Hip. by rewrite IH.
Qed.

(** C8: for every configured address and for both flags, when the loop of
    [iptables] comes to the address: an address that is not IPv4 is skipped
    with the logged warning, whatever the environment, and the loop goes on
    to the next address without running a command; for an IPv4 address
    whose command fails, the process dies of the panic "iptables failed:
    ..." and nothing moves any more. *)
Theorem iptables_failure_is_fatal s f i ip :
  aborted s = None → lpc s = LIptables f i → IPs q !! i = Some ip →
  match To4 ip with
  | None =>
      ∀ r, step q (Loop r) s
           = Some (goto (LIptables f (S i)) (log [EvLogOnlyIPv4 ip] s))
  | Some ip4 =>
      ∀ err, ∃ s',
        step q (Loop (Some err)) s = Some s'
        ∧ aborted s' = Some ("iptables failed: " +:+ err)
        ∧ trace s' = trace s ++ [EvExec (iptablesArgs q f ip4) (Some err);
                                 EvQueueClose;
                                 EvPanic ("iptables failed: " +:+ err)]
        ∧ ∀ l, step q l s' = None
  end.
Proof.
  intros Ha Hpc Hip. destruct (To4 ip) as [ip4|] eqn:H4.
  - intros err. eexists. split; [|split; [|split]].
    + unfold step. rewrite Ha. unfold loopStep. rewrite Hpc, Hip.
      unfold iptablesIter. rewrite H4. reflexivity.
    + reflexivity.
    + simpl. by rewrite <- app_assoc.
    + intros l. reflexivity.
  - intros r. unfold step. rewrite Ha. unfold loopStep. rewrite Hpc, Hip.
    unfold iptablesIter. rewrite H4. reflexivity.
Qed.

(** C7: the removal is a deferred call.  Once the [defer] of line 141 has
    run and the body of the function literal is executing, both ways out of
    the body lead straight into [q.iptables(iptablesDeleteFlag)]: when the
    release token is received, the loop runs the removal command for every
    address (here with every command succeeding); when the body panics, it
    does the same before the panic goes on and ends the process. *)
Theorem removal_is_deferred s :
  aborted s = None → lpc s = LSendCapturing ∨ lpc s = LRecvRelease →
  (lpc s = LRecvRelease → release s = true →
   ∃ s1 s',
     step q (Loop None) s = Some s1
     ∧ lpc s1 = LIptables iptablesDeleteFlag 0
     ∧ run q (repeat (Loop None) (length (IPs q))) s1 = Some s'
     ∧ trace s' = trace s ++ [EvRecvRelease]
                  ++ iptablesEvents q iptablesDeleteFlag (IPs q))
  ∧ (∀ msg, ∃ s1 s' s'',
       step q (BodyPanics msg) s = Some s1
       ∧ lpc s1 = LIptables iptablesDeleteFlag 0
       ∧ run q (repeat (Loop None) (length (IPs q))) s1 = Some s'
       ∧ trace s' = trace s ++ iptablesEvents q iptablesDeleteFlag (IPs q)
       ∧ step q (Loop None) s' = Some s''
       ∧ aborted s'' = Some msg).
Proof.
  intros Ha Hbody. split.
  - intros Hpc Hrel. do 2 eexists. split; [|split; [|split]].
    + unfold step. rewrite Ha. unfold loopStep. by rewrite Hpc, Hrel.
    + reflexivity.
    + apply (run_iptables iptablesDeleteFlag _ 0); [done|done|lia].
    + simpl. by rewrite drop_0, <- app_assoc.
  - intros msg. do 3 eexists. split; [|split; [|split; [|split; [|split]]]].
    + unfold step. rewrite Ha. by destruct Hbody as [-> | ->].
    + reflexivity.
    + apply (run_iptables iptablesDeleteFlag _ 0); [done|done|lia].
    + simpl. by rewrite drop_0.
    + unfold step. simpl. rewrite Ha. unfold loopStep. simpl.
      rewrite lookup_ge_None_2 by lia. reflexivity.
    + reflexivity.
Qed.

(** **** A queue without addresses *)

Lemma empty_queue_inv s :
  IPs q = [] → reachable q s →
  aborted s = None ∧ (lpc s = LEntry ∨ lpc s = LReturned)
  ∧ ppc s = PNotStarted
  ∧ capture s = false ∧ capturing s = false ∧ release s = false
  ∧ inCapture s = 0 ∧ onlyReturns (trace s).
Proof.
  intros Hq. induction 1 as [|s l s' _ IH Hstep].
  - repeat split; auto. constructor.
  - destruct IH as (Ha & Hpc & Hp & Hc & Hg & Hr & Hi & Htr).
    unfold step, loopStep, CaptureSend, CaptureRecv, Release,
      packetArrives, packetTimeout, packetStep in Hstep.
    rewrite Hq, Ha, Hi, Hp in Hstep. simpl in Hstep.
    destruct l; try discriminate.
    + destruct Hpc as [Hpc|Hpc]; rewrite Hpc in Hstep; simplify_eq.
      repeat split; auto.
    + destruct Hpc as [Hpc|Hpc]; rewrite Hpc in Hstep; simplify_eq.
    + simplify_eq. repeat split; auto. apply Forall_app. split; [done|].
      constructor; [by left|constructor].
    + simplify_eq. repeat split; auto. apply Forall_app. split; [done|].
      constructor; [by right|constructor].
Qed.

(** C6: with an empty address set, [Capture] and [Release] are always able
    to return at once, and all either does is return: no channel changes,
    the loop stays where it returned, and the trace of a run holds no event
    but those returns, so that no firewall command is ever executed. *)
Theorem empty_address_set_is_noop s :
  IPs q = [] → reachable q s →
  step q CallCapture s = Some (log [EvCaptureReturn] s)
  ∧ step q CallRelease s = Some (log [EvReleaseReturn] s)
  ∧ (∀ e, e ∈ trace s → e = EvCaptureReturn ∨ e = EvReleaseReturn)
  ∧ (∀ args r, EvExec args r ∉ trace s)
  ∧ capture s = false ∧ capturing s = false ∧ release s = false.
Proof.
  intros Hq Hs.
  destruct (empty_queue_inv s Hq Hs) as (Ha & _ & _ & Hc & Hg & Hr & _ & Htr).
  unfold onlyReturns in Htr. rewrite Forall_forall in Htr.
  unfold step, CaptureSend, Release. rewrite Ha, Hq. simpl.
  repeat split; auto.
  intros args r Hin. by destruct (Htr _ Hin).
Qed.

(** **** A stale release token *)

Lemma run_cons l ls s s1 :
  step q l s = Some s1 → run q (l :: ls) s = run q ls s1.
Proof. intros H. simpl. by rewrite H. Qed.

(** C10, amended: on a live queue with addresses that is idle, with its
    three channels empty, [Release] does not block and leaves the release
    token behind; the next drain session, started by a [Capture] and with
    every command succeeding, then runs from the capture request to the
    reopening of the gate, removal of the rules included, without any further
    call of [Release]. *)
Theorem stale_release_ends_next_session s :
  IPs q ≠ [] → reachable q s → idle s →
  capturing s = false → release s = false →
  ∃ s1 s2,
    step q CallRelease s = Some s1
    ∧ release s1 = true
    ∧ trace s1 = trace s ++ [EvReleaseReturn]
    ∧ run q (sessionLabels q) s1 = Some s2
    ∧ trace s2 = trace s1 ++ sessionEvents q
    ∧ lpc s2 = LRecvCapture ∧ accepting s2 = true ∧ release s2 = false.
Proof.
  intros Hq Hs (Hpc & Hc & Ha) Hg Hr.
  assert (panicking s = None) as Hp.
  { destruct (panicking s) eqn:Hp; [|done].
    destruct (panicking_pc s Hs) as [i Hi]; congruence. }
  assert ((length (IPs q) =? 0)%nat = false) as Hlen.
  { apply Nat.eqb_neq. by destruct (IPs q). }
  eexists. eexists. split; [|split; [|split; [|split]]].
  - unfold step, Release. rewrite Ha, Hlen, Hr. reflexivity.
  - reflexivity.
  - reflexivity.
  - unfold sessionLabels. cbn [app].
    erewrite run_cons; [|unfold step, CaptureSend; st_simpl;
                          by rewrite Ha, Hlen, Hc].
    erewrite run_cons; [|unfold step, loopStep; st_simpl; by rewrite Ha, Hpc].
    erewrite run_cons; [|unfold step, loopStep; st_simpl; by rewrite Ha].
    erewrite run_app_Some;
      [|by apply (run_iptables iptablesAddFlag _ 0); st_simpl].
    cbn [app].
    erewrite run_cons; [|unfold step, loopStep; st_simpl; rewrite Ha;
                          by rewrite lookup_ge_None_2 by lia].
    erewrite run_cons; [|unfold step, loopStep; st_simpl; by rewrite Ha].
    erewrite run_cons; [|unfold step, loopStep; st_simpl; by rewrite Ha, Hg].
    erewrite run_cons; [|unfold step, loopStep; st_simpl; by rewrite Ha].
    erewrite run_app_Some;
      [|by apply (run_iptables iptablesDeleteFlag _ 0); st_simpl].
    cbn [app].
    erewrite run_cons; [|unfold step, loopStep; st_simpl; rewrite Ha, Hp;
                          by rewrite lookup_ge_None_2 by lia].
    erewrite run_cons; [|unfold step, loopStep; st_simpl; by rewrite Ha].
    erewrite run_cons; [|unfold step, loopStep; st_simpl; by rewrite Ha].
    reflexivity.
  - st_simpl. unfold sessionEvents. rewrite !drop_0.
    split; [|done]. by rewrite <- !app_assoc.
Qed.

(** **** The counter of the packet goroutine *)

Lemma wrapInt_succ v : wrapInt (wrapInt v + 1) = wrapInt (v + 1).
Proof.
  unfold wrapInt.
  replace ((v + 2 ^ 63) `mod` 2 ^ 64 - 2 ^ 63 + 1 + 2 ^ 63)%Z
    with ((v + 2 ^ 63) `mod` 2 ^ 64 + 1)%Z by lia.
  rewrite Zplus_mod_idemp_l. do 2 f_equal. lia.
Qed.

Lemma verdictsSinceLog_app tr evs :
  verdictsSinceLog (tr ++ evs)
  = fold_left (λ n e, match e with
                      | EvVerdictAccept _ => (n + 1)%Z
                      | EvLogDelayed _ => 0%Z
                      | _ => n
                      end) evs (verdictsSinceLog tr).
Proof. unfold verdictsSinceLog. apply fold_left_app. Qed.

Ltac iter_cases :=
  try match goal with H : iptablesIter _ _ ?ip _ = _ |- _ =>
        unfold iptablesIter in H; destruct (To4 ip); simplify_eq end.

(** The counter is the number of verdicts issued since the last report. *)
Lemma count_is_verdicts s :
  reachable q s → count s = wrapInt (verdictsSinceLog (trace s)).
Proof.
  induction 1 as [|s l s' _ IH Hstep]; [done|].
  inv_step Hstep; iter_cases; st_simpl.
  all: rewrite ?verdictsSinceLog_app; simpl; try done.
  by rewrite IH, wrapInt_succ.
Qed.

Lemma precededBy_app X (P : list event → Prop) tr evs :
  precededBy X P tr →
  (∀ pre x post, evs = pre ++ x :: post → X x → P (tr ++ pre)) →
  precededBy X P (tr ++ evs).
Proof.
  intros Htr He pre x post Heq Hx.
  apply app_eq_app in Heq as [l [[Htr' Hl]|[-> Hl]]].
  - destruct l as [|y l]; simpl in Hl.
    + rewrite app_nil_r in Htr'. subst tr.
      specialize (He [] x post). rewrite app_nil_r in He. by apply He.
    + injection Hl as <- _. by eapply Htr.
  - by eapply He.
Qed.

(** A report gives the number of verdicts issued since the report before. *)
Lemma report_is_verdicts n s :
  reachable q s →
  precededBy (λ e, e = EvLogDelayed n)
    (λ pre, n = wrapInt (verdictsSinceLog pre) ∧ (0 < n)%Z) (trace s).
Proof.
  induction 1 as [|s l s' Hs IH Hstep]; [apply precededBy_nil|].
  pose proof (count_is_verdicts s Hs) as Hcount.
  inv_step Hstep; iter_cases; st_simpl; try done.
  all: rewrite <- ?app_assoc; cbn [app].
  all: apply precededBy_app; [done|]; intros pre x post Heq ->.
  all: repeat (destruct pre as [|? pre]; simplify_eq/=).
  rewrite app_nil_r. split; [done|]. by apply Z.ltb_lt.
Qed.

(** C2, amended: a packet that the packet goroutine examines with the gate
    open receives its accept verdict in the very next step of the goroutine,
    and that step increments the counter like every other verdict: in every
    reachable state the counter is the number, on 64 bits, of the verdicts
    issued since the last report, whether the packets found the gate open or
    closed, and every "Delayed ... packages" line reports that number. *)
Theorem every_verdict_is_counted s :
  reachable q s →
  (∀ p, aborted s = None → ppc s = PCheck p → accepting s = true →
     step q PacketTask s
     = Some (setPpc PSelect
               (log [EvVerdictAccept p] (setCount (wrapInt (count s + 1)) s))))
  ∧ count s = wrapInt (verdictsSinceLog (trace s))
  ∧ (∀ pre n post, trace s = pre ++ EvLogDelayed n :: post →
       n = wrapInt (verdictsSinceLog pre) ∧ (0 < n)%Z).
Proof.
  intros Hs. split; [|split].
  - intros p Ha Hp Hg. unfold step, packetStep. by rewrite Ha, Hp, Hg.
  - by apply count_is_verdicts.
  - intros pre n post Heq. by eapply (report_is_verdicts n s Hs).
Qed.

(** **** The rules in the chain *)

Lemma firewall_app tr evs :
  firewall (tr ++ evs) = fold_left applyExec evs (firewall tr).
Proof. unfold firewall. apply fold_left_app. Qed.

Lemma rulesFor_app ips1 ips2 :
  rulesFor q (ips1 ++ ips2) = rulesFor q ips1 ++ rulesFor q ips2.
Proof. unfold rulesFor. by rewrite omap_app, fmap_app. Qed.

Lemma iptablesArgs_split f ip4 :
  iptablesArgs q f ip4 = flagString f :: ruleOf q ip4.
Proof. reflexivity. Qed.

Lemma firewall_step s l s' :
  firewall (trace s) = expectedRules q (lpc s) →
  step q l s = Some s' →
  firewall (trace s') = expectedRules q (lpc s').
Proof.
  intros Hfw Hstep. inv_step Hstep; st_simpl.
  all: repeat match goal with H : lpc _ = _ |- _ => rewrite H in *; clear H end.
  all: rewrite <- ?app_assoc, ?firewall_app, ?Hfw; try done.
  - unfold iptablesIter in *. destruct (To4 _); simplify_eq. by destruct r.
  - match goal with H : IPs q !! _ = Some ?ip |- _ =>
      rename H into Hip; pose proof (rulesFor_app [ip]) as Happ end.
    unfold iptablesIter in *. unfold expectedRules.
    destruct f.
    + rewrite (take_S_r _ _ _ Hip), rulesFor_app. unfold rulesFor at 3.
      destruct (To4 _) as [ip4|] eqn:H4; simplify_eq; simpl; rewrite H4; simpl.
      * by destruct r.
      * by rewrite app_nil_r.
    + rewrite (drop_S _ _ _ Hip). unfold rulesFor at 1 2. simpl.
      destruct (To4 _) as [ip4|] eqn:H4; simplify_eq; simpl.
      * destruct r; [done|]. simpl. by rewrite decide_True.
      * done.
  - match goal with H : _ !! _ = None |- _ => apply lookup_ge_None_1 in H end.
    simpl. by rewrite take_ge.
  - match goal with H : _ !! _ = None |- _ => apply lookup_ge_None_1 in H end.
    simpl. by rewrite drop_ge.
Qed.

(** X7: the rules of the program in the INPUT chain follow the loop: there
    is none between two sessions; during the installation there are those of
    the IPv4 addresses done so far, in their order; from the end of the
    installation to the receipt of the release there is one for every IPv4
    address; during the removal there are those of the addresses still to
    do.  The same holds when a command has failed and the process is dead,
    so that a failure in the middle leaves rules behind. *)
Theorem firewall_follows_loop s :
  reachable q s → firewall (trace s) = expectedRules q (lpc s).
Proof.
  induction 1 as [|s l s' _ IH Hstep]; [done|]. by eapply firewall_step.
Qed.

(** **** The tokens of the three channels *)

(** X8: on a queue with addresses, every acknowledgement sent on
    [q.capturing] is either still in the channel or was taken by exactly one
    return of [Capture]; every token that a [Release] has sent is either
    still in [q.release] or was received by the loop; and every [Capture]
    that has sent its request and not returned accounts for one request
    received by the loop or still in [q.capture]. *)
Theorem tokens_are_conserved s :
  IPs q ≠ [] → reachable q s →
  countEv isSendCapturing (trace s)
  = (countEv isCaptureReturn (trace s) + b2n (capturing s))%nat
  ∧ countEv isReleaseReturn (trace s)
    = (countEv isRecvRelease (trace s) + b2n (release s))%nat
  ∧ (inCapture s + countEv isCaptureReturn (trace s))%nat
    = (countEv isRecvCapture (trace s) + b2n (capture s))%nat.
Proof.
  intros Hq. assert ((length (IPs q) =? 0)%nat = false) as Hlen.
  { apply Nat.eqb_neq. by destruct (IPs q). }
  induction 1 as [|s l s' _ IH Hstep]; [done|].
  destruct IH as (IH1 & IH2 & IH3).
  inv_step Hstep; iter_cases; st_simpl; try congruence.
  all: unfold countEv in *; rewrite <- ?app_assoc, ?List.filter_app, ?length_app.
  all: cbn [app List.filter length isSendCapturing isCaptureReturn
            isReleaseReturn isRecvRelease isRecvCapture].
  all: repeat match goal with
       | H : capture _ = _ |- _ => rewrite H in *; clear H
       | H : capturing _ = _ |- _ => rewrite H in *; clear H
       | H : release _ = _ |- _ => rewrite H in *; clear H
       | H : inCapture _ = _ |- _ => rewrite H in *; clear H
       end.
  all: simpl in *; lia.
Qed.

(** **** The gate and the verdicts *)





(** The packet goroutine does not exist before line 117. *)
Lemma packet_task_not_started s :
  reachable q s → lpc s = LEntry ∨ lpc s = LNewNFQueue → ppc s = PNotStarted.
Proof.
  induction 1 as [|s l s' _ IH Hstep]; [done|].
  inv_step Hstep; st_simpl; intros Hpc.
  all: repeat match goal with H : lpc _ = _ |- _ => rewrite H in *; clear H end.
  all: try (by destruct Hpc).
  all: try (by apply IH; auto).
  all: specialize (IH Hpc); congruence.
Qed.

(** X10: the packets are accepted in the order in which they were taken
    from the queue, each once: the packets taken are the packets given a
    verdict followed by the one packet, if any, that the goroutine holds. *)
Theorem packets_accepted_in_order s :
  reachable q s →
  packetsOf (trace s) = verdictsOf (trace s) ++ inHand (ppc s).
Proof.
  induction 1 as [|s l s' Hs IH Hstep]; [done|].
  pose proof (packet_task_not_started s Hs) as Hnot.
  inv_step Hstep; iter_cases; st_simpl.
  all: unfold packetsOf, verdictsOf in *; rewrite <- ?app_assoc, ?omap_app.
  all: cbn [app omap list_omap inHand].
  all: repeat match goal with H : ppc _ = _ |- _ => rewrite H in *; clear H end.
  all: cbn [inHand] in *; rewrite ?app_nil_r in *; try done.
  - rewrite IH, Hnot; [by rewrite app_nil_r|]. right. congruence.
  - by destruct (ppc s).
  - by rewrite IH.
Qed.

(** **** [iptables] as one call *)

Lemma hd_lookup (rs : list (option string)) : hd None rs = default None (rs !! 0%nat).
Proof. by destruct rs. Qed.

Lemma iptablesEvents_cons f ip ips :
  iptablesEvents q f (ip :: ips)
  = (iptablesIter q f ip None).1 ++ iptablesEvents q f ips.
Proof. reflexivity. Qed.

(** X11: a call of [iptables] returns normally exactly when no command
    for an IPv4 address fails, and then it has run the command for each of
    them, in order, and logged one warning for each other address; else it
    panics with the error of the first command that fails, after the
    commands and warnings of the addresses before it and nothing more. *)
Theorem iptables_first_failure f ips : ∀ rs,
  match (iptablesOver q f ips rs).2 with
  | None =>
      (∀ i ip, ips !! i = Some ip → is_Some (To4 ip) →
               default None (rs !! i) = None)
      ∧ (iptablesOver q f ips rs).1 = iptablesEvents q f ips
  | Some msg =>
      ∃ i ip ip4 err,
        ips !! i = Some ip ∧ To4 ip = Some ip4 ∧ rs !! i = Some (Some err)
        ∧ msg = "iptables failed: " +:+ err
        ∧ (∀ j ip', (j < i)%nat → ips !! j = Some ip' → is_Some (To4 ip') →
                    default None (rs !! j) = None)
        ∧ (iptablesOver q f ips rs).1
          = iptablesEvents q f (take i ips)
            ++ [EvExec (iptablesArgs q f ip4) (Some err)]
  end.
Proof.
  induction ips as [|ip ips IH]; intros rs.
  - simpl. split; [|done]. intros i ip Hi. by rewrite lookup_nil in Hi.
  - cbn [iptablesOver]. unfold iptablesIter at 1 2.
    destruct (To4 ip) as [ip4|] eqn:H4.
    + destruct (hd None rs) as [err|] eqn:Hhd.
      * cbn [snd fst]. exists 0%nat, ip, ip4, err.
        rewrite hd_lookup in Hhd.
        destruct (rs !! 0%nat) as [[e|]|] eqn:H0; simplify_eq/=.
        repeat split; auto. intros j ip' Hj. lia.
      * specialize (IH (tl rs)).
        destruct (iptablesOver q f ips (tl rs)) as [evs' [msg|]] eqn:Hrec;
          cbn [snd fst] in *.
        -- destruct IH as (i & ip' & ip4' & err & Hi & H4' & Hr & -> & Hbefore & Hevs).
           exists (S i), ip', ip4', err. repeat split; auto.
           ++ by rewrite <- lookup_tail.
           ++ intros [|j] ip'' Hj Hl Hs.
              ** by rewrite <- hd_lookup.
              ** rewrite <- lookup_tail. eapply Hbefore; [|done..]. lia.
           ++ rewrite Hevs. cbn [take]. rewrite iptablesEvents_cons.
              unfold iptablesIter. rewrite H4. by rewrite <- app_assoc.
        -- destruct IH as [Hok Hevs]. split.
           ++ intros [|i] ip' Hl Hs.
              ** by rewrite <- hd_lookup.
              ** rewrite <- lookup_tail. by eapply Hok.
           ++ rewrite Hevs, iptablesEvents_cons. unfold iptablesIter.
              by rewrite H4.
    + specialize (IH (tl rs)).
      destruct (iptablesOver q f ips (tl rs)) as [evs' [msg|]] eqn:Hrec;
        cbn [snd fst] in *.
      * destruct IH as (i & ip' & ip4' & err & Hi & H4' & Hr & -> & Hbefore & Hevs).
        exists (S i), ip', ip4', err. repeat split; auto.
        -- by rewrite <- lookup_tail.
        -- intros [|j] ip'' Hj Hl Hs.
           ++ simpl in Hl. simplify_eq. rewrite H4 in Hs. by destruct Hs.
           ++ rewrite <- lookup_tail. eapply Hbefore; [|done..]. lia.
        -- rewrite Hevs. cbn [take]. rewrite iptablesEvents_cons.
           unfold iptablesIter. rewrite H4. by rewrite <- app_assoc.
      * destruct IH as [Hok Hevs]. split.
        -- intros [|i] ip' Hl Hs.
           ++ simpl in Hl. simplify_eq. rewrite H4 in Hs. by destruct Hs.
           ++ rewrite <- lookup_tail. by eapply Hok.
        -- rewrite Hevs, iptablesEvents_cons. unfold iptablesIter.
           by rewrite H4.
Qed.

Lemma run_iptables_results f ips : ∀ i rs s,
  aborted s = None → lpc s = LIptables f i → (i <= length (IPs q))%nat →
  drop i (IPs q) = ips → length rs = length ips →
  match iptablesOver q f ips rs with
  | (evs, None) =>
      run q (Loop <$> rs) s
      = Some (goto (LIptables f (length (IPs q))) (log evs s))
  | (evs, Some msg) =>
      ∃ k, (i + k < length (IPs q))%nat
           ∧ run q (Loop <$> take (S k) rs) s
             = Some (abort true msg (goto (LIptables f (i + k)) (log evs s)))
  end.
Proof.
  induction ips as [|ip ips IH]; intros i rs s Ha Hpc Hi Hdrop Hlen.
  - destruct rs; [|done]. simpl.
    assert (i = length (IPs q)) as <-.
    { apply (f_equal length) in Hdrop. rewrite length_drop in Hdrop. simpl in *. lia. }
    rewrite log_nil by done. by rewrite goto_same.
  - destruct rs as [|r rs]; [done|]. simpl in Hlen.
    assert (IPs q !! i = Some ip) as Hip.
    { rewrite <- (Nat.add_0_r i), <- lookup_drop, Hdrop. done. }
    assert (drop (S i) (IPs q) = ips) as Hdrop'.
    { rewrite (drop_S _ _ _ Hip) in Hdrop. by injection Hdrop. }
    assert (i < length (IPs q))%nat as Hlt by (by eapply lookup_lt_Some).
    cbn [iptablesOver hd tl].
    destruct (iptablesIter q f ip r) as [evs [msg|]] eqn:Hiter.
    + exists 0%nat. split; [lia|]. cbn [take fmap list_fmap run].
      unfold step. rewrite Ha. unfold loopStep. rewrite Hpc, Hip, Hiter.
      rewrite Nat.add_0_r. rewrite (goto_same (log evs s)); done.
    + specialize (IH (S i) rs (goto (LIptables f (S i)) (log evs s))).
      destruct (iptablesOver q f ips rs) as [evs' [msg|]] eqn:Hrec.
      * destruct IH as (k & Hk & Hrun); [done|done|lia|done|lia|].
        exists (S k). split; [lia|].
        cbn [take fmap list_fmap run]. unfold step at 1. rewrite Ha.
        unfold loopStep. rewrite Hpc, Hip, Hiter.
        cbn [take fmap list_fmap] in Hrun. rewrite Hrun. f_equal.
        unfold abort, goto, log, setAborted. simpl.
        rewrite <- !app_assoc. do 2 f_equal. lia.
      * cbn [fmap list_fmap run]. unfold step at 1. rewrite Ha.
        unfold loopStep. rewrite Hpc, Hip, Hiter.
        rewrite IH; [|done|done|lia|done|lia]. f_equal.
        unfold goto, log. simpl. by rewrite <- app_assoc.
Qed.

(** X12: the statements of the loop, run one by one with the results [rs]
    of the commands, do what the call [iptables(flag)] does as a whole: they
    leave the events of the call in the trace, and end past the last
    address when the call returns, or with the process dead of the panic of
    the call at the address whose command failed. *)
Theorem loop_runs_iptables s f rs :
  aborted s = None → lpc s = LIptables f 0 → length rs = length (IPs q) →
  match iptables q f rs with
  | (evs, None) =>
      run q (Loop <$> rs) s
      = Some (goto (LIptables f (length (IPs q))) (log evs s))
  | (evs, Some msg) =>
      ∃ k, (k < length (IPs q))%nat
           ∧ run q (Loop <$> take (S k) rs) s
             = Some (abort true msg (goto (LIptables f k) (log evs s)))
  end.
Proof.
  intros Ha Hpc Hlen. unfold iptables.
  apply (run_iptables_results f (IPs q) 0 rs s); auto. lia.
Qed.

(** **** The signal that nobody waits for *)

Lemma packetsOf_app tr1 tr2 : packetsOf (tr1 ++ tr2) = packetsOf tr1 ++ packetsOf tr2.
Proof. apply omap_app. Qed.

Lemma verdictsOf_app tr1 tr2 :
  verdictsOf (tr1 ++ tr2) = verdictsOf tr1 ++ verdictsOf tr2.
Proof. apply omap_app. Qed.

Lemma iptablesEvents_no_packets f ips :
  packetsOf (iptablesEvents q f ips) = [] ∧ verdictsOf (iptablesEvents q f ips) = [].
Proof.
  induction ips as [|ip ips [IH1 IH2]]; [done|].
  rewrite iptablesEvents_cons, packetsOf_app, verdictsOf_app, IH1, IH2.
  unfold iptablesIter. by destruct (To4 ip).
Qed.

(** X13: [Signal] can come before [Wait].  On every queue with addresses
    there is a run, without any failure, after which the gate is open, the
    loop waits for the next capture and all channels are empty, while the
    packet goroutine sleeps in [Wait] with a packet that has no verdict;
    nothing but a new call of [Capture] or [Release] can move then, so the
    packet, and every packet behind it in the queue, is held until the end
    of the next session. *)
Theorem signal_can_be_lost p :
  IPs q ≠ [] →
  ∃ s, run q (lostSignalLabels q p) init = Some s
       ∧ ppc s = PWaiting p ∧ accepting s = true ∧ lpc s = LRecvCapture
       ∧ capture s = false ∧ capturing s = false ∧ release s = false
       ∧ packetsOf (trace s) = [p] ∧ verdictsOf (trace s) = []
       ∧ ∀ l, l ≠ CallCapture → l ≠ CallRelease → step q l s = None.
Proof.
  intros Hq.
  assert ((length (IPs q) =? 0)%nat = false) as Hlen.
  { apply Nat.eqb_neq. by destruct (IPs q). }
  eexists. split.
  - unfold lostSignalLabels. cbn [app].
    erewrite run_cons; [|unfold step, loopStep; st_simpl; by rewrite Hlen].
    erewrite run_cons; [|unfold step, loopStep; by st_simpl].
    erewrite run_cons; [|unfold step, CaptureSend; st_simpl; by rewrite Hlen].
    erewrite run_cons; [|unfold step, loopStep; by st_simpl].
    erewrite run_cons; [|unfold step, loopStep; by st_simpl].
    erewrite run_app_Some;
      [|by apply (run_iptables iptablesAddFlag _ 0); st_simpl].
    cbn [app].
    erewrite run_cons; [|unfold step, loopStep; st_simpl;
                          by rewrite lookup_ge_None_2 by lia].
    erewrite run_cons; [|unfold step, loopStep; by st_simpl].
    erewrite run_cons; [|unfold step, loopStep; by st_simpl].
    erewrite run_cons; [|unfold step, packetArrives; by st_simpl].
    erewrite run_cons; [|unfold step, packetStep; by st_simpl].
    erewrite run_cons; [|unfold step, CaptureRecv; by st_simpl].
    erewrite run_cons; [|unfold step, Release; st_simpl; by rewrite Hlen].
    erewrite run_cons; [|unfold step, loopStep; by st_simpl].
    erewrite run_app_Some;
      [|by apply (run_iptables iptablesDeleteFlag _ 0); st_simpl].
    cbn [app].
    erewrite run_cons; [|unfold step, loopStep; st_simpl;
                          by rewrite lookup_ge_None_2 by lia].
    erewrite run_cons; [|unfold step, loopStep; by st_simpl].
    erewrite run_cons; [|unfold step, loopStep; by st_simpl].
    erewrite run_cons; [|unfold step, packetStep; by st_simpl].
    reflexivity.
  - st_simpl. repeat split.
    + rewrite !packetsOf_app.
      by rewrite !(proj1 (iptablesEvents_no_packets _ _)).
    + rewrite !verdictsOf_app.
      by rewrite !(proj2 (iptablesEvents_no_packets _ _)).
    + intros l Hc Hr. unfold step. st_simpl.
      destruct l; try done; unfold loopStep, packetArrives, packetTimeout,
        packetStep, CaptureRecv; by st_simpl.
Qed.

End NetfilterQueueFacts.

(** * Properties of [ipArgs] *)

Section IpArgsFacts.

Import NetfilterQueue.

Variable ParseIP : string → option IP.

Lemma Split_nonempty s : Split s ≠ [].
Proof.
  destruct s as [|c s]; simpl; [done|].
  destruct (Ascii.eqb c ","); [done|]. by destruct (Split s).
Qed.

Lemma joinComma_cons p p' ps :
  joinComma (p :: p' :: ps) = p +:+ String "," (joinComma (p' :: ps)).
Proof. reflexivity. Qed.

Lemma joinComma_Split s : joinComma (Split s) = s.
Proof.
  induction s as [|c s IH]; [done|]. simpl.
  pose proof (Split_nonempty s) as Hne.
  destruct (Ascii.eqb c ",") eqn:Hc.
  - apply Ascii.eqb_eq in Hc as ->.
    destruct (Split s) as [|p ps]; [done|]. by rewrite joinComma_cons, IH.
  - destruct (Split s) as [|p ps]; [done|].
    destruct ps as [|p' ps]; simpl in *; by rewrite <- IH.
Qed.

Lemma Split_commaFree p : commaFree p = true → Split p = [p].
Proof.
  induction p as [|c p IH]; [done|]. simpl.
  destruct (Ascii.eqb c ","); [done|]. simpl. intros H. by rewrite IH.
Qed.

Lemma Split_app_comma p rest :
  commaFree p = true → Split (p +:+ String "," rest) = p :: Split rest.
Proof.
  induction p as [|c p IH]; [done|]. simpl.
  destruct (Ascii.eqb c ",") eqn:Hc; [done|]. simpl. intros H.
  by rewrite IH.
Qed.

Lemma Split_pieces s : Forall (λ p, commaFree p = true) (Split s).
Proof.
  induction s as [|c s IH]; simpl; [by repeat constructor|].
  destruct (Ascii.eqb c ",") eqn:Hc; [by constructor|].
  destruct (Split s) as [|p ps]; [by repeat constructor; simpl; rewrite Hc|].
  apply Forall_cons in IH as [Hp Hps]. constructor; [|done].
  simpl. by rewrite Hc, Hp.
Qed.

(** [strings.Split] on commas and the joining of pieces with commas undo
    each other. *)
Lemma Split_joinComma :
  (∀ s, joinComma (Split s) = s)
  ∧ (∀ s, Forall (λ p, commaFree p = true) (Split s))
  ∧ (∀ ps, ps ≠ [] → Forall (λ p, commaFree p = true) ps →
           Split (joinComma ps) = ps).
Proof.
  split; [exact joinComma_Split|]. split; [exact Split_pieces|].
  induction ps as [|p ps IH]; intros Hne Hps; [done|].
  apply Forall_cons in Hps as [Hp Hps].
  destruct ps as [|p' ps]; [by apply Split_commaFree|].
  rewrite joinComma_cons, Split_app_comma by done. by rewrite IH.
Qed.

Lemma parseAll_spec ps :
  match parseAll ParseIP ps with
  | inl ips => Forall2 (λ p ip, ParseIP p = Some ip) ps ips
  | inr msg =>
      ∃ i p, ps !! i = Some p ∧ ParseIP p = None
             ∧ msg = "incorrect IP: " +:+ p
             ∧ ∀ j p', (j < i)%nat → ps !! j = Some p' → is_Some (ParseIP p')
  end.
Proof.
  induction ps as [|p ps IH]; simpl; [constructor|].
  destruct (ParseIP p) as [ip|] eqn:Hp.
  - destruct (parseAll ParseIP ps) as [ips|msg].
    + by constructor.
    + destruct IH as (i & p' & Hi & Hp' & -> & Hbefore).
      exists (S i), p'. repeat split; auto.
      intros [|j] p'' Hj Hl; simpl in Hl; simplify_eq; [eauto|].
      eapply Hbefore; [|done]. lia.
  - exists 0%nat, p. repeat split; auto. intros j p' Hj. lia.
Qed.

(** X14: [ipArgs] gives no address and no error for the empty argument.
    For any other argument it parses the pieces between the commas in
    order: it returns the addresses of all the pieces when each of them
    parses, as many as there are pieces and so at least one; else it returns
    the error that names the first piece that does not parse. *)
Theorem ipArgs_spec arg :
  match ipArgs ParseIP arg with
  | inl ips =>
      (arg = "" ∧ ips = [])
      ∨ (arg ≠ "" ∧ ips ≠ []
         ∧ Forall2 (λ p ip, ParseIP p = Some ip) (Split arg) ips)
  | inr msg =>
      arg ≠ ""
      ∧ ∃ i p, Split arg !! i = Some p ∧ ParseIP p = None
               ∧ msg = "incorrect IP: " +:+ p
               ∧ ∀ j p', (j < i)%nat → Split arg !! j = Some p' →
                         is_Some (ParseIP p')
  end.
Proof.
  unfold ipArgs. destruct arg as [|c arg]; simpl String.length; cbn [Nat.eqb].
  - by left.
  - pose proof (parseAll_spec (Split (String c arg))) as Hspec.
    pose proof (Split_nonempty (String c arg)) as Hne.
    destruct (parseAll ParseIP (Split (String c arg))) as [ips|msg].
    + right. split; [done|]. split; [|done].
      intros ->. apply Forall2_nil_inv_r in Hspec. done.
    + split; [done|]. exact Hspec.
Qed.

Lemma parseAll_Forall2 ps ips :
  Forall2 (λ p ip, ParseIP p = Some ip) ps ips → parseAll ParseIP ps = inl ips.
Proof.
  induction 1 as [|p ip ps ips Hp _ IH]; simpl; [done|]. by rewrite Hp, IH.
Qed.

(** X15: an argument written as addresses joined by commas gives back
    those addresses, in their order: for pieces without commas, not all of
    them together empty, that [net.ParseIP] parses, [ipArgs] of the pieces
    joined returns the parsed addresses. *)
Theorem ipArgs_joined ps ips :
  Forall (λ p, commaFree p = true) ps → joinComma ps ≠ EmptyString →
  Forall2 (λ p ip, ParseIP p = Some ip) ps ips →
  ipArgs ParseIP (joinComma ps) = inl ips.
Proof.
  intros Hfree Hne Hparse. unfold ipArgs.
  destruct (joinComma ps) as [|c arg] eqn:Harg; [done|]. cbn [String.length Nat.eqb].
  rewrite <- Harg.
  rewrite (proj2 (proj2 Split_joinComma) ps); [by apply parseAll_Forall2| |done].
  intros ->. done.
Qed.

End IpArgsFacts.

(** * The example queue *)

Section Examples.

Import NetfilterQueue.

Lemma reachable_run q ls s : run q ls init = Some s → reachable q s.
Proof. apply run_reachable. constructor. Qed.

Lemma started_reachable : reachable exampleQueue started.
Proof. by apply (reachable_run _ startLabels). Qed.

Lemma gateClosed_reachable : reachable exampleQueue gateClosed.
Proof. by apply (reachable_run _ gateClosedLabels). Qed.

Lemma acknowledged_reachable : reachable exampleQueue acknowledged.
Proof. by apply (reachable_run _ acknowledgedLabels). Qed.

Lemma released_reachable : reachable exampleQueue released.
Proof. by apply (reachable_run _ releasedLabels). Qed.

Lemma secondSession_reachable : reachable exampleQueue secondSession.
Proof. by apply (reachable_run _ secondSessionLabels). Qed.

Lemma staleRelease_reachable : reachable exampleQueue staleRelease.
Proof. by apply (reachable_run _ staleReleaseLabels). Qed.

Lemma packetInHand_reachable : reachable exampleQueue packetInHand.
Proof. by apply (reachable_run _ packetLabels). Qed.

Lemma emptyCalled_reachable : reachable emptyQueue emptyCalled.
Proof. by apply (reachable_run _ emptyLabels). Qed.

(** The scenario of the specification: [Capture] installs the two rules for
    10.0.0.1 and 10.0.0.2 on queue 100, [Release] removes those two. *)
Example scenario_two_addresses :
  sessionEvents exampleQueue
  = [EvRecvCapture; EvAccepting false;
     EvExec ["-A"; "INPUT"; "-j"; "NFQUEUE"; "-w"; "-p"; "tcp"; "--syn";
             "--destination"; "10.0.0.1"; "--queue-num"; "100"] None;
     EvExec ["-A"; "INPUT"; "-j"; "NFQUEUE"; "-w"; "-p"; "tcp"; "--syn";
             "--destination"; "10.0.0.2"; "--queue-num"; "100"] None;
     EvSendCapturing; EvRecvRelease;
     EvExec ["-D"; "INPUT"; "-j"; "NFQUEUE"; "-w"; "-p"; "tcp"; "--syn";
             "--destination"; "10.0.0.1"; "--queue-num"; "100"] None;
     EvExec ["-D"; "INPUT"; "-j"; "NFQUEUE"; "-w"; "-p"; "tcp"; "--syn";
             "--destination"; "10.0.0.2"; "--queue-num"; "100"] None;
     EvAccepting true; EvSignal].
Proof. reflexivity. Qed.

(** C1 as the specification states it fails on the example queue: when the
    loop has closed the gate, no install command has run yet. *)
Lemma install_before_gate_closes_fails : ¬ installBeforeGateCloses exampleQueue.
Proof.
  intros H.
  specialize (H gateClosed gateClosed_reachable [EvRecvCapture] [] eq_refl
                (EvExec (iptablesArgs exampleQueue iptablesAddFlag [10; 0; 0; 1]%N)
                   None)).
  apply list_elem_of_In in H; [|apply list_elem_of_In; by left].
  destruct H as [H|[]]. discriminate H.
Qed.

Lemma gate_closes_before_install_witness :
  reachable exampleQueue acknowledged
  ∧ ([EvRecvCapture; EvAccepting false]
     ++ iptablesEvents exampleQueue iptablesAddFlag (IPs exampleQueue))
    `suffix_of` (List.filter isSessionEvent
                   (firstn 5 (trace acknowledged)))
  ∧ accepting acknowledged = false.
Proof.
  split; [exact acknowledged_reachable|].
  destruct (gate_closes_before_install exampleQueue acknowledged
              acknowledged_reachable) as (_ & Hack & _).
  split; [|reflexivity].
  apply (Hack _ []). reflexivity.
Defined.

(** C2 as the specification states it fails on the example queue: a packet
    that arrives while the gate has never been closed increments the
    counter, and the next timeout reports it as delayed. *)
Lemma open_gate_not_counted_fails : ¬ openGateNotCounted exampleQueue.
Proof.
  intros H.
  specialize (H packetInHand 7%nat _ packetInHand_reachable eq_refl eq_refl eq_refl).
  vm_compute in H. discriminate.
Qed.

Example open_gate_packet_reported :
  option_map trace
    (run exampleQueue (packetLabels ++ [PacketTask; PacketTimeout]) init)
  = Some [EvNewNFQueue 100; EvPacket 7; EvVerdictAccept 7; EvLogDelayed 1].
Proof. reflexivity. Qed.

Lemma every_verdict_is_counted_witness :
  reachable exampleQueue packetInHand
  ∧ step exampleQueue PacketTask packetInHand
    = Some (setPpc PSelect
              (log [EvVerdictAccept 7]
                 (setCount (wrapInt (count packetInHand + 1)) packetInHand)))
  ∧ count packetInHand = wrapInt (verdictsSinceLog (trace packetInHand)).
Proof.
  split; [exact packetInHand_reachable|].
  destruct (every_verdict_is_counted exampleQueue packetInHand
              packetInHand_reachable) as (Hnow & Hcount & _).
  split; [|exact Hcount].
  apply Hnow; reflexivity.
Defined.

Lemma sessions_never_overlap_witness :
  reachable exampleQueue secondSession
  ∧ sessionEvents exampleQueue
    `suffix_of` List.filter isSessionEvent (firstn 13 (trace secondSession)).
Proof.
  split; [exact secondSession_reachable|].
  destruct (sessions_never_overlap exampleQueue secondSession
              secondSession_reachable) as (Hstart & _).
  destruct (Hstart (List.filter isSessionEvent (firstn 13 (trace secondSession)))
              [] eq_refl) as [Hnil|Hsuf]; [discriminate Hnil|exact Hsuf].
Defined.

Lemma empty_address_set_is_noop_witness :
  IPs emptyQueue = [] ∧ reachable emptyQueue emptyCalled
  ∧ step emptyQueue CallCapture emptyCalled = Some (log [EvCaptureReturn] emptyCalled)
  ∧ step emptyQueue CallRelease emptyCalled = Some (log [EvReleaseReturn] emptyCalled).
Proof.
  split; [reflexivity|]. split; [exact emptyCalled_reachable|].
  destruct (empty_address_set_is_noop emptyQueue emptyCalled eq_refl
              emptyCalled_reachable) as (Hc & Hr & _).
  split; [exact Hc|exact Hr].
Defined.

Lemma removal_is_deferred_witness :
  aborted released = None ∧ lpc released = LRecvRelease
  ∧ release released = true
  ∧ (∃ s1 s', step exampleQueue (Loop None) released = Some s1
              ∧ lpc s1 = LIptables iptablesDeleteFlag 0
              ∧ run exampleQueue (repeat (Loop None) 2) s1 = Some s'
              ∧ trace s' = trace released ++ [EvRecvRelease]
                           ++ iptablesEvents exampleQueue iptablesDeleteFlag
                                (IPs exampleQueue))
  ∧ (∃ s1 s' s'', step exampleQueue (BodyPanics "boom") released = Some s1
                  ∧ lpc s1 = LIptables iptablesDeleteFlag 0
                  ∧ run exampleQueue (repeat (Loop None) 2) s1 = Some s'
                  ∧ trace s' = trace released
                               ++ iptablesEvents exampleQueue iptablesDeleteFlag
                                    (IPs exampleQueue)
                  ∧ step exampleQueue (Loop None) s' = Some s''
                  ∧ aborted s'' = Some "boom").
Proof.
  split; [reflexivity|]. split; [reflexivity|]. split; [reflexivity|].
  destruct (removal_is_deferred exampleQueue released eq_refl
              (or_intror eq_refl)) as (Hnormal & Hpanic).
  split; [exact (Hnormal eq_refl eq_refl)|exact (Hpanic "boom")].
Defined.

Lemma iptables_failure_is_fatal_witness :
  aborted gateClosed = None ∧ lpc gateClosed = LIptables iptablesAddFlag 0
  ∧ IPs exampleQueue !! 0%nat = Some [10; 0; 0; 1]%N
  ∧ ∃ s', step exampleQueue (Loop (Some "exit status 1")) gateClosed = Some s'
          ∧ aborted s' = Some "iptables failed: exit status 1"
          ∧ trace s' = trace gateClosed
                       ++ [EvExec (iptablesArgs exampleQueue iptablesAddFlag
                                     [10; 0; 0; 1]%N) (Some "exit status 1");
                           EvQueueClose;
                           EvPanic "iptables failed: exit status 1"]
          ∧ ∀ l, step exampleQueue l s' = None.
Proof.
  split; [reflexivity|]. split; [reflexivity|]. split; [reflexivity|].
  exact (iptables_failure_is_fatal exampleQueue gateClosed iptablesAddFlag 0
           [10; 0; 0; 1]%N eq_refl eq_refl eq_refl "exit status 1").
Defined.

(** An address that is not IPv4 among the addresses: a warning, no command,
    and the call goes on. *)
Example iptables_skips_IPv6 :
  iptables (mkQ 100 [[32; 1; 13; 184; 0; 0; 0; 0; 0; 0; 0; 0; 0; 0; 0; 1];
                     [10; 0; 0; 1]]%N) iptablesAddFlag []
  = ([EvLogOnlyIPv4 [32; 1; 13; 184; 0; 0; 0; 0; 0; 0; 0; 0; 0; 0; 0; 1]%N;
      EvExec ["-A"; "INPUT"; "-j"; "NFQUEUE"; "-w"; "-p"; "tcp"; "--syn";
              "--destination"; "10.0.0.1"; "--queue-num"; "100"] None],
     None).
Proof. reflexivity. Qed.

(** C10 as it is stated fails on the example queue: after one [Release] on
    the idle queue, the queue is still idle and a second [Release] blocks. *)
Lemma idle_release_never_blocks_fails : ¬ idleReleaseNeverBlocks exampleQueue.
Proof.
  intros H.
  destruct (H staleRelease staleRelease_reachable) as [s' Hs'].
  - by repeat split.
  - discriminate Hs'.
Qed.

Lemma stale_release_ends_next_session_witness :
  IPs exampleQueue ≠ [] ∧ reachable exampleQueue started ∧ idle started
  ∧ capturing started = false ∧ release started = false
  ∧ ∃ s1 s2,
      step exampleQueue CallRelease started = Some s1
      ∧ release s1 = true
      ∧ trace s1 = trace started ++ [EvReleaseReturn]
      ∧ run exampleQueue (sessionLabels exampleQueue) s1 = Some s2
      ∧ trace s2 = trace s1 ++ sessionEvents exampleQueue
      ∧ lpc s2 = LRecvCapture ∧ accepting s2 = true ∧ release s2 = false.
Proof.
  assert (IPs exampleQueue ≠ []) as Hne by discriminate.
  assert (idle started) as Hidle by (by repeat split).
  split; [exact Hne|]. split; [exact started_reachable|].
  split; [exact Hidle|]. split; [reflexivity|]. split; [reflexivity|].
  exact (stale_release_ends_next_session exampleQueue started Hne
           started_reachable Hidle eq_refl eq_refl).
Defined.

(** **** Further properties on the example queue *)

Lemma verdictGiven_reachable : reachable exampleQueue verdictGiven.
Proof. by apply (reachable_run _ verdictLabels). Qed.

Lemma firewall_follows_loop_witness :
  reachable exampleQueue acknowledged
  ∧ firewall (trace acknowledged)
    = [["INPUT"; "-j"; "NFQUEUE"; "-w"; "-p"; "tcp"; "--syn";
        "--destination"; "10.0.0.1"; "--queue-num"; "100"];
       ["INPUT"; "-j"; "NFQUEUE"; "-w"; "-p"; "tcp"; "--syn";
        "--destination"; "10.0.0.2"; "--queue-num"; "100"]].
Proof.
  split; [exact acknowledged_reachable|].
  exact (firewall_follows_loop exampleQueue acknowledged acknowledged_reachable).
Defined.

Lemma tokens_are_conserved_witness :
  IPs exampleQueue ≠ [] ∧ reachable exampleQueue secondSession
  ∧ countEv isSendCapturing (trace secondSession)
    = (countEv isCaptureReturn (trace secondSession)
       + b2n (capturing secondSession))%nat
  ∧ countEv isReleaseReturn (trace secondSession)
    = (countEv isRecvRelease (trace secondSession)
       + b2n (release secondSession))%nat
  ∧ (inCapture secondSession + countEv isCaptureReturn (trace secondSession))%nat
    = (countEv isRecvCapture (trace secondSession)
       + b2n (capture secondSession))%nat.
Proof.
  assert (IPs exampleQueue ≠ []) as Hne by discriminate.
  split; [exact Hne|]. split; [exact secondSession_reachable|].
  exact (tokens_are_conserved exampleQueue secondSession Hne
           secondSession_reachable).
Defined.


Lemma packets_accepted_in_order_witness :
  reachable exampleQueue verdictGiven
  ∧ packetsOf (trace verdictGiven) = [7; 8]%nat
  ∧ verdictsOf (trace verdictGiven) ++ inHand (ppc verdictGiven) = [7; 8]%nat.
Proof.
  split; [exact verdictGiven_reachable|]. split; [reflexivity|].
  symmetry.
  exact (packets_accepted_in_order exampleQueue verdictGiven
           verdictGiven_reachable).
Defined.

Lemma loop_runs_iptables_witness :
  aborted gateClosed = None ∧ lpc gateClosed = LIptables iptablesAddFlag 0
  ∧ ∃ k, (k < 2)%nat
         ∧ run exampleQueue
             (Loop <$> take (S k) [None; Some "exit status 1"]) gateClosed
           = Some (abort true "iptables failed: exit status 1"
                     (goto (LIptables iptablesAddFlag k)
                        (log [EvExec (iptablesArgs exampleQueue iptablesAddFlag
                                        [10; 0; 0; 1]%N) None;
                              EvExec (iptablesArgs exampleQueue iptablesAddFlag
                                        [10; 0; 0; 2]%N)
                                (Some "exit status 1")]
                           gateClosed))).
Proof.
  split; [reflexivity|]. split; [reflexivity|].
  exact (loop_runs_iptables exampleQueue gateClosed iptablesAddFlag
           [None; Some "exit status 1"] eq_refl eq_refl eq_refl).
Defined.

Lemma signal_can_be_lost_witness :
  IPs exampleQueue ≠ []
  ∧ ∃ s, run exampleQueue (lostSignalLabels exampleQueue 7) init = Some s
         ∧ ppc s = PWaiting 7 ∧ accepting s = true ∧ lpc s = LRecvCapture
         ∧ capture s = false ∧ capturing s = false ∧ release s = false
         ∧ packetsOf (trace s) = [7]%nat ∧ verdictsOf (trace s) = []
         ∧ ∀ l, l ≠ CallCapture → l ≠ CallRelease →
                step exampleQueue l s = None.
Proof.
  assert (IPs exampleQueue ≠ []) as Hne by discriminate.
  split; [exact Hne|].
  exact (signal_can_be_lost exampleQueue 7%nat Hne).
Defined.

Lemma ipArgs_joined_witness :
  Forall (λ p, commaFree p = true) ["10.0.0.1"; "10.0.0.2"]
  ∧ joinComma ["10.0.0.1"; "10.0.0.2"] ≠ EmptyString
  ∧ Forall2 (λ p ip, exampleParseIP p = Some ip) ["10.0.0.1"; "10.0.0.2"]
      [[0; 0; 0; 0; 0; 0; 0; 0; 0; 0; 255; 255; 10; 0; 0; 1];
       [0; 0; 0; 0; 0; 0; 0; 0; 0; 0; 255; 255; 10; 0; 0; 2]]%N
  ∧ ipArgs exampleParseIP "10.0.0.1,10.0.0.2"
    = inl [[0; 0; 0; 0; 0; 0; 0; 0; 0; 0; 255; 255; 10; 0; 0; 1];
           [0; 0; 0; 0; 0; 0; 0; 0; 0; 0; 255; 255; 10; 0; 0; 2]]%N.
Proof.
  assert (Forall (λ p, commaFree p = true) ["10.0.0.1"; "10.0.0.2"]) as Hfree
    by (repeat constructor).
  assert (joinComma ["10.0.0.1"; "10.0.0.2"] ≠ EmptyString) as Hne
    by discriminate.
  assert (Forall2 (λ p ip, exampleParseIP p = Some ip) ["10.0.0.1"; "10.0.0.2"]
            [[0; 0; 0; 0; 0; 0; 0; 0; 0; 0; 255; 255; 10; 0; 0; 1];
             [0; 0; 0; 0; 0; 0; 0; 0; 0; 0; 255; 255; 10; 0; 0; 2]]%N) as Hparse
    by (repeat constructor).
  split; [exact Hfree|]. split; [exact Hne|]. split; [exact Hparse|].
  exact (ipArgs_joined exampleParseIP _ _ Hfree Hne Hparse).
Defined.

End Examples.

(** * The accounting file, examples *)

Section SnapshotExamples.

Import ProcNetfilter.

Lemma exampleRecords_valid : Forall validQueue exampleRecords.
Proof. repeat constructor. Qed.

Lemma Update_reads_back_witness :
  exampleRecords ≠ [] ∧ Forall validQueue exampleRecords
  ∧ Update EOF (inl (renderFile kernelWidth exampleRecords))
      {[ 9%N := zeroQueue ]}
    = ({[ 1%N := mkQueue 1 0 5 2 65531 2 0 9 1;
          7%N := mkQueue 7 4021 3 2 65531 0 1 12 1 ]}, None).
Proof.
  assert (exampleRecords ≠ []) as Hne by discriminate.
  split; [exact Hne|]. split; [exact exampleRecords_valid|].
  rewrite (Update_reads_back EOF kernelWidth exampleRecords _ Hne
             exampleRecords_valid).
  vm_compute. reflexivity.
Defined.

Lemma Get_after_refresh_witness :
  exampleRecords ≠ [] ∧ Forall validQueue exampleRecords
  ∧ Get (Update EOF (inl (renderFile kernelWidth exampleRecords))
           {[ 9%N := zeroQueue ]}).1 1
    = (mkQueue 1 0 5 2 65531 2 0 9 1, true)
  ∧ Get (Update EOF (inl (renderFile kernelWidth exampleRecords))
           {[ 9%N := zeroQueue ]}).1 9
    = (zeroQueue, false).
Proof.
  assert (exampleRecords ≠ []) as Hne by discriminate.
  split; [exact Hne|]. split; [exact exampleRecords_valid|]. split.
  - exact (Get_after_refresh EOF kernelWidth exampleRecords _ 1 Hne
             exampleRecords_valid).
  - exact (Get_after_refresh EOF kernelWidth exampleRecords _ 9 Hne
             exampleRecords_valid).
Defined.

Lemma Update_short_line_witness :
  Forall validQueue [theRecord]
  ∧ Forall (λ n, (n < maxUint)%N) [7; 4021; 3]%N
  ∧ (0 < length [7; 4021; 3]%N < 9)%nat
  ∧ Update EOF
      (inl (renderFile kernelWidth [theRecord]
            +:+ renderFields kernelWidth 0 [7; 4021; 3]%N
            +:+ String nl EmptyString)) ∅
    = (<[ 7%N := mkQueue 7 4021 3 2 65531 0 0 1 1 ]> (storeAll [theRecord] ∅),
       Some (ErrScan "newline in input does not match format")).
Proof.
  assert (Forall validQueue [theRecord]) as Hrecs by (repeat constructor).
  assert (Forall (λ n, (n < maxUint)%N) [7; 4021; 3]%N) as Hns
    by (repeat constructor).
  assert (0 < length [7; 4021; 3]%N < 9)%nat as Hlen by (simpl; lia).
  split; [exact Hrecs|]. split; [exact Hns|]. split; [exact Hlen|].
  exact (Update_short_line EOF kernelWidth [theRecord] [7; 4021; 3]%N
           EmptyString ∅ Hrecs Hns Hlen).
Defined.

Lemma Update_success_nonempty_witness :
  Update EOF (inl theLine) ∅ = ({[ 1%N := theRecord ]}, None)
  ∧ ({[ 1%N := theRecord ]} : queues) ≠ ∅.
Proof.
  assert (Update EOF (inl theLine) ∅ = ({[ 1%N := theRecord ]}, None)) as H
    by (vm_compute; reflexivity).
  split; [exact H|].
  exact (Update_success_nonempty EOF theLine ∅ _ H).
Defined.

Lemma Update_error_keeps_ids_witness :
  Update EOF (inl ("7 4021 3" +:+ String nl EmptyString))
    {[ 5%N := mkQueue 5 0 0 2 65531 0 0 1 1 ]}
  = ({[ 5%N := mkQueue 5 0 0 2 65531 0 0 1 1;
        7%N := mkQueue 7 4021 3 0 0 0 0 0 0 ]},
     Some (ErrScan "newline in input does not match format"))
  ∧ (Get {[ 5%N := mkQueue 5 0 0 2 65531 0 0 1 1 ]} 5).2 = true
  ∧ (Get {[ 5%N := mkQueue 5 0 0 2 65531 0 0 1 1;
            7%N := mkQueue 7 4021 3 0 0 0 0 0 0 ]} 5).2 = true.
Proof.
  assert (Update EOF (inl ("7 4021 3" +:+ String nl EmptyString))
            {[ 5%N := mkQueue 5 0 0 2 65531 0 0 1 1 ]}
          = ({[ 5%N := mkQueue 5 0 0 2 65531 0 0 1 1;
                7%N := mkQueue 7 4021 3 0 0 0 0 0 0 ]},
             Some (ErrScan "newline in input does not match format"))) as H
    by (vm_compute; reflexivity).
  assert ((Get {[ 5%N := mkQueue 5 0 0 2 65531 0 0 1 1 ]} 5).2 = true) as Hget
    by reflexivity.
  split; [exact H|]. split; [exact Hget|].
  exact (Update_error_keeps_ids EOF _ _ _ _ 5%N H Hget).
Defined.

Lemma Update_loop_ends_witness :
  Fscanf EOF (theLine +:+ String nl "rest") zeroVars
  = (varsOf theRecord, None, "rest")
  ∧ (String.length "rest" + 9
     <= String.length (theLine +:+ String nl "rest"))%nat.
Proof.
  assert (Fscanf EOF (theLine +:+ String nl "rest") zeroVars
          = (varsOf theRecord, None, "rest")) as H by (vm_compute; reflexivity).
  split; [exact H|].
  exact (proj1 (Update_loop_ends EOF (theLine +:+ String nl "rest") zeroVars ∅ ∅)
           _ _ H).
Defined.

Lemma Update_keeps_keys_witness :
  keyedByID {[ 9%N := mkQueue 9 0 0 2 65531 0 0 1 1 ]}
  ∧ keyedByID (Update EOF (inl (renderFile kernelWidth exampleRecords))
                 {[ 9%N := mkQueue 9 0 0 2 65531 0 0 1 1 ]}).1.
Proof.
  assert (keyedByID {[ 9%N := mkQueue 9 0 0 2 65531 0 0 1 1 ]}) as Hpn.
  { intros i r Hr. unfold Get in Hr.
    destruct (decide (i = 9%N)) as [->|Hne].
    - vm_compute in Hr. by injection Hr as <-.
    - rewrite lookup_singleton_ne in Hr by done. discriminate Hr. }
  split; [exact Hpn|].
  exact (Update_keeps_keys EOF _ _ Hpn).
Defined.

End SnapshotExamples.
